(** * A single-node map/reduce pipeline: model and properties

    Shallow embedding of [src/homework/mapreduce.py].

    The Python module is a sequence of six small functions over the file
    system plus an orchestrator.  The embedding keeps that shape:

    - text is [string] (a sequence of bytes, read as UTF-8: the bytewise
      lexicographic order of UTF-8 text is the code-point order Python
      uses for [str]);
    - a record is a pair; a sequence is a [list], in program order;
    - the file system is an association list from path to node, whose
      order is the order in which the operating system lists entries;
    - effects (file system, standard input, the calls issued to the
      operating system, the state the user callables may touch) are
      threaded through a state-and-exception monad [M].

    Conventions: paths are normalised (components separated by single
    slashes, no trailing slash, no "." or ".." component); the platform
    is POSIX (text is written as it is, standard input is split at "\n"
    only, [os.remove] of a directory is an [IsADirectoryError]);
    permissions, encodings and disk space never fail; keys are [str],
    values are of any type that an f-string can format.

    [glob] is modelled for directory names without the metacharacters
    "*", "?" and "[".  With one of them [glob] matches directory names
    against a pattern; that expansion is not modelled, and every
    statement that depends on what [glob] lists carries the hypothesis
    [has_magic d = false]. *)

From Stdlib Require Import List String Ascii Bool Arith Lia ZArith.
From Stdlib Require Import Permutation Sorted DecimalString.
Import ListNotations.

Local Open Scope string_scope.
Local Open Scope list_scope.

Infix "+:+" := String.append (at level 60, right associativity).

(* ================================================================== *)
(** ** Python's [sorted(seq, key=...)] *)

(** [sorted] is a stable sort that compares the keys with [<] only.  For
    a key order that is a strict total order the result of a stable sort
    is unique, so the insertion scheme below computes the list Python's
    merge-based implementation returns. *)

Section Sorted.
Context {A K : Type}.
Variable key : A -> K.
Variable lt : K -> K -> bool.

(** [x] comes from an earlier position than everything in [l]: it
    overtakes nothing that is not strictly smaller. *)
Fixpoint insort (x : A) (l : list A) : list A :=
  match l with
  | [] => [x]
  | y :: l' =>
      if lt (key y) (key x) then y :: insort x l' else x :: y :: l'
  end.

Fixpoint sorted (l : list A) : list A :=
  match l with
  | [] => []
  | x :: l' => insort x (sorted l')
  end.
End Sorted.

(** [sorted(sequence, key=lambda x: x[0])], keys being [str]. *)
Definition _shuffle_and_sort {V : Type} (sequence : list (string * V))
  : list (string * V) :=
  sorted (fun x => fst x) String.ltb sequence.

(** Ascending key order: the next key is never strictly below. *)
Definition key_le {V : Type} (a b : string * V) : Prop :=
  String.leb (fst a) (fst b) = true.

(** The records carrying key [k], in sequence order. *)
Definition with_key {V : Type} (k : string) (l : list (string * V))
  : list (string * V) :=
  filter (fun r => String.eqb (fst r) k) l.

(** Replace every value, keeping its key. *)
Definition map_values {V W : Type} (f : V -> W) (l : list (string * V))
  : list (string * W) :=
  map (fun r => (fst r, f (snd r))) l.

(* ================================================================== *)
(** ** Text and paths *)

Definition LF : ascii := "010"%char.
Definition CR : ascii := "013"%char.
Definition NL : string := String LF "".
Definition TAB : string := String "009"%char "".
Definition SLASH : ascii := "/"%char.

(** Text-mode reading splits a stream into lines and keeps the line
    terminator.  Python's default universal-newline mode turns each of
    "\n", "\r\n" and "\r" into "\n"; a last line without terminator is
    returned as it is. *)
Fixpoint readlines_from (acc : string) (after_cr : bool) (s : string)
  : list string :=
  match s with
  | EmptyString => match acc with EmptyString => [] | _ => [acc] end
  | String c s' =>
      if Ascii.eqb c LF then
        if after_cr then readlines_from "" false s'
        else (acc +:+ NL) :: readlines_from "" false s'
      else if Ascii.eqb c CR then
        (acc +:+ NL) :: readlines_from "" true s'
      else readlines_from (acc +:+ String c "") false s'
  end.

Definition readlines (s : string) : list string := readlines_from "" false s.

(** Standard input is read as it stands: on POSIX [sys.stdin] is opened
    with newline "\n", so a line ends at "\n" only and a carriage return
    is a character like any other. *)
Fixpoint stdin_lines_from (acc : string) (s : string) : list string :=
  match s with
  | EmptyString => match acc with EmptyString => [] | _ => [acc] end
  | String c s' =>
      if Ascii.eqb c LF then (acc +:+ NL) :: stdin_lines_from "" s'
      else stdin_lines_from (acc +:+ String c "") s'
  end.

Definition stdin_lines (s : string) : list string := stdin_lines_from "" s.

(** No line break inside [s]. *)
Fixpoint one_line (s : string) : bool :=
  match s with
  | EmptyString => true
  | String c s' => negb (Ascii.eqb c LF) && negb (Ascii.eqb c CR) && one_line s'
  end.

Fixpoint has_slash (s : string) : bool :=
  match s with
  | EmptyString => false
  | String c s' => Ascii.eqb c SLASH || has_slash s'
  end.

Fixpoint strip_prefix (pre s : string) : option string :=
  match pre, s with
  | EmptyString, _ => Some s
  | String a pre', String b s' =>
      if Ascii.eqb a b then strip_prefix pre' s' else None
  | String _ _, EmptyString => None
  end.

(** [entry_name d p = Some n] when [p] is the path of the direct entry
    named [n] of directory [d], that is [p = d/n] with [n] a single
    non-empty component. *)
Definition entry_name (d p : string) : option string :=
  match strip_prefix (d +:+ "/") p with
  | Some n =>
      match n with
      | EmptyString => None
      | _ => if has_slash n then None else Some n
      end
  | None => None
  end.

Definition is_entry_of (d p : string) : bool :=
  match entry_name d p with Some _ => true | None => false end.

(** [glob]'s rule for "*": a name that starts with a dot is hidden and
    is matched only by a pattern that itself starts with a dot. *)
Definition _ishidden (n : string) : bool :=
  match n with
  | String c _ => Ascii.eqb c "."%char
  | EmptyString => false
  end.

Definition is_visible_entry_of (d p : string) : bool :=
  match entry_name d p with Some n => negb (_ishidden n) | None => false end.

(** The part of a path before its last slash. *)
Fixpoint dirname (p : string) : string :=
  match p with
  | EmptyString => ""
  | String c p' => if has_slash p' then String c (dirname p') else ""
  end.

(** The proper ancestors of a path, outermost first: "a/b/c" has "a"
    and "a/b". *)
Fixpoint ancestors_from (acc p : string) : list string :=
  match p with
  | EmptyString => []
  | String c p' =>
      (if Ascii.eqb c SLASH
       then match acc with EmptyString => [] | _ => [acc] end
       else [])
      ++ ancestors_from (acc +:+ String c "") p'
  end.

Definition ancestors (p : string) : list string := ancestors_from "" p.

(** [glob.has_magic]: the name holds one of "*", "?" and "[". *)
Fixpoint has_magic (s : string) : bool :=
  match s with
  | EmptyString => false
  | String c s' =>
      Ascii.eqb c "*"%char || Ascii.eqb c "?"%char || Ascii.eqb c "["%char
      || has_magic s'
  end.

(** The directory named by a pattern of the form [d/*]. *)
Fixpoint strip_star (pattern : string) : option string :=
  match pattern with
  | EmptyString => None
  | String c rest =>
      if String.eqb pattern "/*" then Some ""
      else option_map (String c) (strip_star rest)
  end.

(** [format(x)] as used by an f-string field [{x}]. *)
Class PyFormat (A : Type) := py_format : A -> string.

#[export] Instance PyFormat_str : PyFormat string := fun s => s.
#[export] Instance PyFormat_int : PyFormat Z :=
  fun z => NilZero.string_of_int (Z.to_int z).

(* ================================================================== *)
(** ** The world the program runs in *)

Inductive node : Type :=
| File (content : string)
| Dir.

(** Paths to nodes; the list order is the order in which the operating
    system enumerates entries (new entries are listed last). *)
Definition filesystem : Type := list (string * node).

(** The calls that change the file system, as issued. *)
Inductive event : Type :=
| EvRemove (path : string)
| EvRmdir (path : string)
| EvMakedirs (path : string)
| EvOpen (path : string)
| EvWrite (path : string) (data : string)
| EvClose (path : string).

Inductive exn : Type :=
| FileNotFoundError (path : string)
| FileExistsError (path : string)
| IsADirectoryError (path : string)
| NotADirectoryError (path : string)
| DirectoryNotEmpty (path : string)
| UserError (what : string).

Inductive result (A : Type) : Type :=
| Ok (a : A)
| Raise (e : exn).
Arguments Ok {A} a.
Arguments Raise {A} e.

(** [U] is whatever state the user-supplied callables read and write. *)
Record World (U : Type) : Type := mkWorld {
  fs : filesystem;
  stdin : string;
  trace : list event;
  user : U
}.
Arguments mkWorld {U} _ _ _ _.
Arguments fs {U} _.
Arguments stdin {U} _.
Arguments trace {U} _.
Arguments user {U} _.

Definition M (U A : Type) : Type := World U -> result A * World U.

Definition ret {U A : Type} (a : A) : M U A := fun w => (Ok a, w).

Definition bind {U A B : Type} (c : M U A) (k : A -> M U B) : M U B :=
  fun w =>
    match c w with
    | (Ok a, w') => k a w'
    | (Raise e, w') => (Raise e, w')
    end.

Notation "x <- c ;; k" := (bind c (fun x => k))
  (at level 61, c at next level, right associativity).
Notation "c ;;; k" := (bind c (fun _ => k))
  (at level 61, right associativity).

(** [for x in l: f(x)] *)
Fixpoint for_each {U A : Type} (f : A -> M U unit) (l : list A) : M U unit :=
  match l with
  | [] => ret tt
  | x :: l' => f x ;;; for_each f l'
  end.

(** A user callable: a transformation of a whole sequence that may fail
    and may touch the user state. *)
Definition callable (U A B : Type) : Type := A -> U -> result B * U.

Definition call {U A B : Type} (f : callable U A B) (x : A) : M U B :=
  fun w =>
    let '(r, u) := f x (user w) in
    (r, mkWorld (fs w) (stdin w) (trace w) u).

(* ------------------------------------------------------------------ *)
(** *** File-system primitives *)

Fixpoint fs_lookup (p : string) (t : filesystem) : option node :=
  match t with
  | [] => None
  | (q, n) :: t' => if String.eqb q p then Some n else fs_lookup p t'
  end.

Definition fs_delete (p : string) (t : filesystem) : filesystem :=
  filter (fun e => negb (String.eqb (fst e) p)) t.

Fixpoint fs_put (p : string) (n : node) (t : filesystem) : filesystem :=
  match t with
  | [] => [(p, n)]
  | (q, m) :: t' =>
      if String.eqb q p then (p, n) :: t' else (q, m) :: fs_put p n t'
  end.

Definition fs_exists (p : string) (t : filesystem) : bool :=
  match fs_lookup p t with Some _ => true | None => false end.

(** The direct entries of [d] with their nodes, hidden ones included. *)
Definition dir_contents (d : string) (t : filesystem) : filesystem :=
  filter (fun e => is_entry_of d (fst e)) t.

Definition os_listdir (d : string) (t : filesystem) : list string :=
  map fst (dir_contents d t).

Definition log {U : Type} (e : event) (t : filesystem) (w : World U) : World U :=
  mkWorld t (stdin w) (trace w ++ [e]) (user w).

(** [os.path.exists(p)] *)
Definition os_path_exists {U : Type} (p : string) : M U bool :=
  fun w => (Ok (fs_exists p (fs w)), w).

(** [glob.glob(pattern)] for the patterns the program builds, [d/*],
    when [has_magic d = false]: the visible direct entries of [d], as
    full paths, in listing order; nothing when [d] is not a directory.
    For a [d] with a metacharacter [glob] expands [d] itself against
    the directory names; this reading of [d] as a plain name is then
    not what the library does, and no statement about the listing is
    made for such a [d]. *)
Definition glob_paths (pattern : string) (t : filesystem) : list string :=
  match strip_star pattern with
  | Some d =>
      match fs_lookup d t with
      | Some Dir => filter (is_visible_entry_of d) (map fst t)
      | _ => []
      end
  | None => []
  end.

Definition glob_glob {U : Type} (pattern : string) : M U (list string) :=
  fun w => (Ok (glob_paths pattern (fs w)), w).

(** [os.remove(p)] *)
Definition os_remove {U : Type} (p : string) : M U unit :=
  fun w =>
    match fs_lookup p (fs w) with
    | Some (File _) => (Ok tt, log (EvRemove p) (fs_delete p (fs w)) w)
    | Some Dir => (Raise (IsADirectoryError p), w)
    | None => (Raise (FileNotFoundError p), w)
    end.

(** [os.rmdir(p)] *)
Definition os_rmdir {U : Type} (p : string) : M U unit :=
  fun w =>
    match fs_lookup p (fs w) with
    | Some Dir =>
        match os_listdir p (fs w) with
        | [] => (Ok tt, log (EvRmdir p) (fs_delete p (fs w)) w)
        | _ :: _ => (Raise (DirectoryNotEmpty p), w)
        end
    | Some (File _) => (Raise (NotADirectoryError p), w)
    | None => (Raise (FileNotFoundError p), w)
    end.

(** The first path that cannot be created because the component above
    it is a regular file. *)
Fixpoint blocked_by_file (paths : list string) (t : filesystem)
  : option string :=
  match paths with
  | a :: (b :: _) as rest =>
      match fs_lookup a t with
      | Some (File _) => Some b
      | _ => blocked_by_file rest t
      end
  | _ => None
  end.

(** [os.makedirs(p)]: creates the missing ancestors, then [p]; refuses
    the empty path and an existing [p]. *)
Definition os_makedirs {U : Type} (p : string) : M U unit :=
  fun w =>
    match p, fs_lookup p (fs w) with
    | EmptyString, _ => (Raise (FileNotFoundError p), w)
    | _, Some _ => (Raise (FileExistsError p), w)
    | _, None =>
        match blocked_by_file (ancestors p ++ [p]) (fs w) with
        | Some b => (Raise (NotADirectoryError b), w)
        | None =>
            let missing :=
              filter (fun a => negb (fs_exists a (fs w))) (ancestors p) in
            (Ok tt,
             log (EvMakedirs p)
                 (fs w ++ map (fun a => (a, Dir)) missing ++ [(p, Dir)]) w)
        end
    end.

(** [open(p, "w")]: creates or truncates [p]; the directory part of
    [p], when there is one, must be a directory. *)
Definition open_w {U : Type} (p : string) : M U unit :=
  fun w =>
    let parent :=
      match dirname p with
      | EmptyString => Some Dir
      | d => fs_lookup d (fs w)
      end in
    match parent, fs_lookup p (fs w) with
    | None, _ => (Raise (FileNotFoundError p), w)
    | Some (File _), _ => (Raise (NotADirectoryError p), w)
    | Some Dir, Some Dir => (Raise (IsADirectoryError p), w)
    | Some Dir, _ => (Ok tt, log (EvOpen p) (fs_put p (File "") (fs w)) w)
    end.

(** [f.write(data)] on the file opened at [p]. *)
Definition file_write {U : Type} (p data : string) : M U unit :=
  fun w =>
    match fs_lookup p (fs w) with
    | Some (File c) =>
        (Ok tt, log (EvWrite p data) (fs_put p (File (c +:+ data)) (fs w)) w)
    | _ => (Ok tt, log (EvWrite p data) (fs w) w)
    end.

Definition file_close {U : Type} (p : string) : M U unit :=
  fun w => (Ok tt, log (EvClose p) (fs w) w).

(** [with open(p, "w") as f: body]: the file is closed when the body
    ends, normally or not. *)
Definition with_open_w {U A : Type} (p : string) (body : string -> M U A)
  : M U A :=
  fun w =>
    match open_w p w with
    | (Ok _, w1) =>
        let '(r, w2) := body p w1 in
        (r, snd (file_close p w2))
    | (Raise e, w1) => (Raise e, w1)
    end.

(* ------------------------------------------------------------------ *)
(** *** [fileinput] *)

(** Lines of the named files, each paired with what
    [fileinput.filename()] answers while it is the current line.  Files
    are opened one after the other, in the order given. *)
Fixpoint read_files (t : filesystem) (files : list string)
  : result (list (string * string)) :=
  match files with
  | [] => Ok []
  | p :: rest =>
      match fs_lookup p t with
      | Some (File c) =>
          match read_files t rest with
          | Ok r => Ok (map (pair p) (readlines c) ++ r)
          | Raise e => Raise e
          end
      | Some Dir => Raise (IsADirectoryError p)
      | None => Raise (FileNotFoundError p)
      end
  end.

(** [fileinput.input(files=files)], iterated to the end.  The library's
    constructor replaces an empty [files] by [('-',)] ("if not files:
    files = ('-',)"), and "-" stands for [sys.stdin] as it stands, read
    to its end and reported by [filename()] as "<stdin>". *)
Definition fileinput_input {U : Type} (files : list string)
  : M U (list (string * string)) :=
  fun w =>
    match files with
    | [] =>
        (Ok (map (pair "<stdin>") (stdin_lines (stdin w))),
         mkWorld (fs w) "" (trace w) (user w))
    | _ :: _ => (read_files (fs w) files, w)
    end.

(* ================================================================== *)
(** ** The program *)

Definition _load_input {U : Type} (input_directory : string)
  : M U (list (string * string)) :=
  files <- glob_glob (input_directory +:+ "/*") ;;
  f <- fileinput_input files ;;
  ret (fold_left (fun sequence fl => sequence ++ [(fst fl, snd fl)]) f []).

Definition _create_output_directory {U : Type} (output_directory : string)
  : M U unit :=
  (e <- os_path_exists output_directory ;;
   if e then
     files <- glob_glob (output_directory +:+ "/*") ;;
     for_each os_remove files ;;;
     os_rmdir output_directory
   else ret tt) ;;;
  os_makedirs output_directory.

Definition format_record {V : Type} `{PyFormat V} (r : string * V) : string :=
  py_format (fst r) +:+ TAB +:+ py_format (snd r) +:+ NL.

Definition _save_output {U V : Type} `{PyFormat V}
  (output_directory : string) (sequence : list (string * V)) : M U unit :=
  with_open_w (output_directory +:+ "/part-00000")
    (fun f => for_each (fun r => file_write f (format_record r)) sequence).

Definition _create_marker {U : Type} (output_directory : string) : M U unit :=
  with_open_w (output_directory +:+ "/_SUCCESS") (fun f => file_write f "").

Definition run_mapreduce_job {U V W : Type} `{PyFormat W}
  (mapper : callable U (list (string * string)) (list (string * V)))
  (reducer : callable U (list (string * V)) (list (string * W)))
  (input_directory output_directory : string) : M U unit :=
  sequence <- _load_input input_directory ;;
  sequence <- call mapper sequence ;;
  sequence <- ret (_shuffle_and_sort sequence) ;;
  sequence <- call reducer sequence ;;
  _create_output_directory output_directory ;;;
  _save_output output_directory sequence ;;;
  _create_marker output_directory.

(** What successive [write] calls leave in a file. *)
Definition concat_text (chunks : list string) : string :=
  fold_right String.append "" chunks.

Definition result_path (output_directory : string) : string :=
  output_directory +:+ "/part-00000".

Definition marker_path (output_directory : string) : string :=
  output_directory +:+ "/_SUCCESS".

(* ================================================================== *)
(** ** Vocabulary of the statements *)

(** [glob]'s answer for [d/*] when [d] is a directory. *)
Definition visible_entries (d : string) (t : filesystem) : list string :=
  filter (is_visible_entry_of d) (map fst t).

(** The records one file contributes: its path with each of its lines. *)
Definition records_of (t : filesystem) (p : string) : list (string * string) :=
  match fs_lookup p t with
  | Some (File c) => map (pair p) (readlines c)
  | _ => []
  end.

Definition is_regular (t : filesystem) (p : string) : Prop :=
  exists c, fs_lookup p t = Some (File c).

(** The world after the file system became [t] and the calls [ev] were
    issued. *)
Definition evolve {U : Type} (w : World U) (t : filesystem) (ev : list event)
  : World U :=
  mkWorld t (stdin w) (trace w ++ ev) (user w).

Definition with_user {U : Type} (w : World U) (u : U) : World U :=
  mkWorld (fs w) (stdin w) (trace w) u.

Definition fs_delete_all (ps : list string) (t : filesystem) : filesystem :=
  fold_left (fun t' p => fs_delete p t') ps t.

(** The calls by which the result file is written, and then the marker. *)
Definition result_events {V : Type} `{PyFormat V}
  (output_directory : string) (sequence : list (string * V)) : list event :=
  [EvOpen (result_path output_directory)]
  ++ map (fun r => EvWrite (result_path output_directory) (format_record r))
         sequence
  ++ [EvClose (result_path output_directory)].

Definition marker_events (output_directory : string) : list event :=
  [EvOpen (marker_path output_directory);
   EvWrite (marker_path output_directory) "";
   EvClose (marker_path output_directory)].

(** Calls that only remove or create directories and stale entries. *)
Definition is_reset_event (e : event) : Prop :=
  match e with
  | EvRemove _ | EvRmdir _ | EvMakedirs _ => True
  | _ => False
  end.

(** What the written text of the loader's contract would return: the
    lines of every direct entry, hidden or not. *)
Definition load_every_entry (d : string) (t : filesystem)
  : result (list (string * string)) :=
  read_files t (os_listdir d t).

(** The records of file [p] inside [recs]: one block [mid], nothing of
    [p] before or after it, and the block is the file's lines in order
    when [p] is one of the [files] read. *)
Definition file_block (t : filesystem) (files : list string)
  (recs : list (string * string)) (p : string) : Prop :=
  exists pre mid post,
    recs = pre ++ mid ++ post /\
    (forall r, In r mid -> fst r = p) /\
    (forall r, In r (pre ++ post) -> fst r <> p) /\
    (forall c, fs_lookup p t = Some (File c) -> In p files ->
               mid = map (pair p) (readlines c)).

(** The last three steps of [run_mapreduce_job], on the reduced
    sequence. *)
Definition publish {U W : Type} `{PyFormat W}
  (output_directory : string) (sequence : list (string * W)) : M U unit :=
  _create_output_directory output_directory ;;;
  _save_output output_directory sequence ;;;
  _create_marker output_directory.

(** The text of the result file for a reduced sequence. *)
Definition result_text {W : Type} `{PyFormat W} (sequence : list (string * W))
  : string :=
  concat_text (map format_record sequence).

(** A callable whose answer does not depend on the user state. *)
Definition deterministic {U A B : Type} (f : callable U A B) : Prop :=
  forall x u u', fst (f x u) = fst (f x u').

(** Neither the key nor the value of a record holds a line break. *)
Definition fields_one_line {V : Type} `{PyFormat V} (r : string * V) : Prop :=
  one_line (py_format (fst r)) = true /\ one_line (py_format (snd r)) = true.

(** A carriage return somewhere in [s]. *)
Fixpoint has_cr (s : string) : bool :=
  match s with
  | EmptyString => false
  | String c s' => Ascii.eqb c CR || has_cr s'
  end.

(** The text of the regular file at [p]. *)
Definition content_of (t : filesystem) (p : string) : string :=
  match fs_lookup p t with
  | Some (File c) => c
  | _ => ""
  end.

(** A regular file without carriage return. *)
Definition is_plain_text (t : filesystem) (p : string) : Prop :=
  exists c, fs_lookup p t = Some (File c) /\ has_cr c = false.

(* ------------------------------------------------------------------ *)
(** *** Sample worlds and callables *)

(** No input directory at all; one line waits on standard input. *)
Definition world_no_input : World unit :=
  mkWorld [] ("hello" +:+ NL) [] tt.

(** An input directory without entries; one line waits on standard
    input. *)
Definition world_empty_input : World unit :=
  mkWorld [("input", Dir)] ("hello" +:+ NL) [] tt.

(** An input directory with a hidden and a visible file. *)
Definition world_hidden_input : World unit :=
  mkWorld [("input", Dir);
           ("input/.hidden", File ("h" +:+ NL));
           ("input/a.txt", File ("x" +:+ NL))]
          "" [] tt.

(** Two input files of two lines each. *)
Definition world_two_files : World unit :=
  mkWorld [("input", Dir);
           ("input/b.txt", File ("dog" +:+ NL +:+ "cat" +:+ NL));
           ("input/a.txt", File ("cat" +:+ NL +:+ "emu"))]
          "" [] tt.

(** An output directory that exists and is empty. *)
Definition world_output_ready : World unit :=
  mkWorld [("output", Dir)] "" [] tt.

(** One input file, and an output directory left by an earlier run,
    with an unrelated stale file beside the old result and marker. *)
Definition world_stale_output : World unit :=
  mkWorld [("input", Dir);
           ("input/a.txt", File ("x" +:+ NL));
           ("output", Dir);
           ("output/part-00000", File ("old" +:+ NL));
           ("output/notes.txt", File "stale");
           ("output/_SUCCESS", File "")]
          "" [] tt.

(** As [world_two_files], for callables that count their invocations:
    the user state is (mapper calls, reducer calls). *)
Definition world_counting : World (nat * nat) :=
  mkWorld (fs world_two_files) "" [] (0, 0).

Definition identity_callable {U A : Type} : callable U A A :=
  fun sequence u => (Ok sequence, u).

Definition failing_callable {U A B : Type} (e : exn) : callable U A B :=
  fun _ u => (Raise e, u).

Definition counting_mapper
  : callable (nat * nat) (list (string * string)) (list (string * string)) :=
  fun sequence u => (Ok (map (fun r => (snd r, "1")) sequence), (S (fst u), snd u)).

Definition counting_reducer
  : callable (nat * nat) (list (string * string)) (list (string * string)) :=
  fun sequence u => (Ok sequence, (fst u, S (snd u))).

(** An output directory that holds a visible and a hidden file. *)
Definition world_hidden_output : World unit :=
  mkWorld [("output", Dir);
           ("output/part-00000", File ("old" +:+ NL));
           ("output/.keep", File "")]
          "" [] tt.

(** An output directory that holds a subdirectory between two files. *)
Definition world_nested_output : World unit :=
  mkWorld [("output", Dir);
           ("output/a", File "1");
           ("output/sub", Dir);
           ("output/z", File "2")]
          "" [] tt.

(** A regular file where the output directory is expected. *)
Definition world_output_is_file : World unit :=
  mkWorld [("output", File "x")] "" [] tt.

(** An input directory with a hidden file only; standard input holds
    "a\r\nb\rc\n". *)
Definition world_crlf_stdin : World unit :=
  mkWorld [("input", Dir); ("input/.hidden", File "h")]
          ("a" +:+ String CR NL +:+ "b" +:+ String CR ("c" +:+ NL)) [] tt.

(** The stale output directory, for callables that count their
    invocations. *)
Definition world_counting_stale : World (nat * nat) :=
  mkWorld (fs world_stale_output) "" [] (0, 0).

(* ================================================================== *)
(** * Properties *)

(* ------------------------------------------------------------------ *)
(** *** The order on keys *)

Lemma ascii_compare_refl (a : ascii) : Ascii.compare a a = Eq.
Proof. unfold Ascii.compare. apply N.compare_refl. Qed.

Lemma string_compare_refl (s : string) : String.compare s s = Eq.
Proof.
  induction s as [|a s IH]; simpl; [reflexivity|].
  now rewrite ascii_compare_refl.
Qed.

Lemma ascii_compare_lt_trans (a b c : ascii) :
  Ascii.compare a b = Lt -> Ascii.compare b c = Lt -> Ascii.compare a c = Lt.
Proof.
  unfold Ascii.compare. rewrite !N.compare_lt_iff. lia.
Qed.

Lemma string_compare_lt_trans (s t u : string) :
  String.compare s t = Lt -> String.compare t u = Lt ->
  String.compare s u = Lt.
Proof.
  revert t u.
  induction s as [|a s IH]; intros [|b t] [|c u]; simpl; try congruence.
  destruct (Ascii.compare a b) eqn:Hab; try discriminate;
    destruct (Ascii.compare b c) eqn:Hbc; try discriminate; intros H1 H2.
  - apply Ascii.compare_eq_iff in Hab, Hbc. subst.
    rewrite ascii_compare_refl. eauto.
  - apply Ascii.compare_eq_iff in Hab. subst. now rewrite Hbc.
  - apply Ascii.compare_eq_iff in Hbc. subst. now rewrite Hab.
  - now rewrite (ascii_compare_lt_trans _ _ _ Hab Hbc).
Qed.

Lemma string_ltb_irrefl (s : string) : String.ltb s s = false.
Proof. unfold String.ltb. now rewrite string_compare_refl. Qed.

Lemma string_ltb_false_leb (s t : string) :
  String.ltb s t = false -> String.leb t s = true.
Proof.
  unfold String.ltb, String.leb.
  rewrite (String.compare_antisym t s).
  destruct (String.compare s t); simpl; congruence.
Qed.

Lemma string_ltb_leb (s t : string) :
  String.ltb s t = true -> String.leb s t = true.
Proof.
  unfold String.ltb, String.leb. destruct (String.compare s t); congruence.
Qed.

Lemma string_leb_trans (s t u : string) :
  String.leb s t = true -> String.leb t u = true -> String.leb s u = true.
Proof.
  unfold String.leb.
  destruct (String.compare s t) eqn:Hst; try discriminate;
    destruct (String.compare t u) eqn:Htu; try discriminate; intros _ _.
  - apply String.compare_eq_iff in Hst, Htu. subst.
    now rewrite string_compare_refl.
  - apply String.compare_eq_iff in Hst. subst. now rewrite Htu.
  - apply String.compare_eq_iff in Htu. subst. now rewrite Hst.
  - now rewrite (string_compare_lt_trans _ _ _ Hst Htu).
Qed.

(** The order is the lexicographic one: on two non-empty strings the
    first bytes decide, and equal first bytes defer to the tails. *)
Lemma string_ltb_lexicographic (a b : ascii) (s t : string) :
  String.ltb (String a s) (String b t) =
  (N.ltb (N_of_ascii a) (N_of_ascii b)
   || (N.eqb (N_of_ascii a) (N_of_ascii b) && String.ltb s t)).
Proof.
  unfold String.ltb. simpl. unfold Ascii.compare.
  rewrite N.ltb_compare, N.eqb_compare.
  destruct (N.compare (N_of_ascii a) (N_of_ascii b)); reflexivity.
Qed.

(* ------------------------------------------------------------------ *)
(** *** Facts about the sort *)

Section SortedFacts.
Context {V : Type}.
Implicit Types (x : string * V) (l : list (string * V)).

Lemma insort_perm x l :
  Permutation (x :: l) (insort (fun r => fst r) String.ltb x l).
Proof.
  induction l as [|y l IH]; simpl; [reflexivity|].
  destruct (String.ltb (fst y) (fst x)); [|reflexivity].
  rewrite perm_swap. now constructor.
Qed.

Lemma shuffle_perm l : Permutation l (_shuffle_and_sort l).
Proof.
  induction l as [|x l IH]; simpl; [constructor|].
  etransitivity; [|apply insort_perm]. now constructor.
Qed.

Lemma insort_hd_rel x l a :
  HdRel key_le a l -> key_le a x ->
  HdRel key_le a (insort (fun r => fst r) String.ltb x l).
Proof.
  intros Hl Hx. destruct l as [|y l]; simpl; [now constructor|].
  destruct (String.ltb (fst y) (fst x)); constructor; auto.
  now inversion Hl.
Qed.

Lemma insort_sorted x l :
  Sorted key_le l -> Sorted key_le (insort (fun r => fst r) String.ltb x l).
Proof.
  induction 1 as [|y l Hs IH Hhd]; simpl; [repeat constructor|].
  destruct (String.ltb (fst y) (fst x)) eqn:E.
  - constructor; [exact IH|].
    apply insort_hd_rel; [exact Hhd|]. now apply string_ltb_leb.
  - constructor; [now constructor|].
    constructor. now apply string_ltb_false_leb.
Qed.

Lemma shuffle_sorted l : Sorted key_le (_shuffle_and_sort l).
Proof.
  induction l as [|x l IH]; simpl; [constructor|].
  now apply insort_sorted.
Qed.

Lemma key_le_trans : Relations_1.Transitive (@key_le V).
Proof. intros a b c. unfold key_le. apply string_leb_trans. Qed.

Lemma insort_with_key k x l :
  with_key k (insort (fun r => fst r) String.ltb x l) = with_key k (x :: l).
Proof.
  induction l as [|y l IH]; [reflexivity|].
  simpl insort. destruct (String.ltb (fst y) (fst x)) eqn:E; [|reflexivity].
  unfold with_key in *. simpl in *. rewrite IH.
  destruct (String.eqb (fst x) k) eqn:Ex; [|reflexivity].
  destruct (String.eqb (fst y) k) eqn:Ey; [|reflexivity].
  apply String.eqb_eq in Ex, Ey. rewrite Ex, Ey in E.
  now rewrite string_ltb_irrefl in E.
Qed.

Lemma shuffle_with_key k l :
  with_key k (_shuffle_and_sort l) = with_key k l.
Proof.
  induction l as [|x l IH]; [reflexivity|].
  unfold _shuffle_and_sort in *. simpl sorted.
  rewrite insort_with_key. unfold with_key in *. simpl. now rewrite IH.
Qed.
End SortedFacts.

Lemma insort_map_values {V W : Type} (f : V -> W) x (l : list (string * V)) :
  insort (fun r => fst r) String.ltb (fst x, f (snd x)) (map_values f l) =
  map_values f (insort (fun r => fst r) String.ltb x l).
Proof.
  induction l as [|y l IH]; [reflexivity|].
  simpl. destruct (String.ltb (fst y) (fst x)); [|reflexivity].
  simpl. f_equal. exact IH.
Qed.

Lemma shuffle_map_values {V W : Type} (f : V -> W) (l : list (string * V)) :
  _shuffle_and_sort (map_values f l) = map_values f (_shuffle_and_sort l).
Proof.
  induction l as [|x l IH]; [reflexivity|].
  unfold _shuffle_and_sort in *. simpl. rewrite IH.
  apply insort_map_values.
Qed.

Lemma insort_keys {V W : Type} x y (l : list (string * V)) (m : list (string * W)) :
  fst x = fst y -> map fst l = map fst m ->
  map fst (insort (fun r => fst r) String.ltb x l) =
  map fst (insort (fun r => fst r) String.ltb y m).
Proof.
  intros Hxy. revert m.
  induction l as [|a l IH]; intros [|b m] H; simpl in *; try discriminate.
  - now rewrite Hxy.
  - injection H as Hab H. rewrite Hab, Hxy.
    destruct (String.ltb (fst b) (fst y)); simpl.
    + f_equal; [exact Hab|]. now apply IH.
    + now rewrite Hxy, Hab, H.
Qed.

Lemma shuffle_keys {V W : Type} (l : list (string * V)) (m : list (string * W)) :
  map fst l = map fst m ->
  map fst (_shuffle_and_sort l) = map fst (_shuffle_and_sort m).
Proof.
  revert m. induction l as [|x l IH]; intros [|y m] H; simpl in *;
    try discriminate; [reflexivity|].
  injection H as Hxy H. apply insort_keys; [exact Hxy|]. now apply IH.
Qed.


(* ------------------------------------------------------------------ *)
(** *** Text and paths *)

Lemma append_nil_r (s : string) : s +:+ "" = s.
Proof. induction s as [|c s IH]; simpl; [reflexivity|now rewrite IH]. Qed.

Lemma append_assoc (s t u : string) : (s +:+ t) +:+ u = s +:+ t +:+ u.
Proof. induction s as [|c s IH]; simpl; [reflexivity|now rewrite IH]. Qed.

Lemma append_length (s t : string) :
  String.length (s +:+ t) = String.length s + String.length t.
Proof. induction s as [|c s IH]; simpl; [reflexivity|now rewrite IH]. Qed.

Lemma append_inv_head (s t u : string) : s +:+ t = s +:+ u -> t = u.
Proof.
  induction s as [|c s IH]; simpl; [auto|].
  intros H. injection H as H. auto.
Qed.

Lemma strip_prefix_app (pre r : string) : strip_prefix pre (pre +:+ r) = Some r.
Proof.
  induction pre as [|c pre IH]; simpl; [reflexivity|].
  now rewrite Ascii.eqb_refl.
Qed.

Lemma strip_prefix_Some (pre s r : string) :
  strip_prefix pre s = Some r -> s = pre +:+ r.
Proof.
  revert s. induction pre as [|c pre IH]; intros s; simpl.
  - intros H. now injection H.
  - destruct s as [|b s]; [discriminate|].
    destruct (Ascii.eqb c b) eqn:E; [|discriminate].
    apply Ascii.eqb_eq in E. subst b. intros H. f_equal. auto.
Qed.

Lemma entry_name_Some (d p n : string) :
  entry_name d p = Some n ->
  p = d +:+ "/" +:+ n /\ n <> "" /\ has_slash n = false.
Proof.
  unfold entry_name.
  destruct (strip_prefix (d +:+ "/") p) as [m|] eqn:E; [|discriminate].
  apply strip_prefix_Some in E. rewrite append_assoc in E.
  destruct m as [|c m]; [discriminate|].
  destruct (has_slash (String c m)) eqn:Hs; [discriminate|].
  intros H. injection H as <-. repeat split; [exact E|discriminate|exact Hs].
Qed.

Lemma entry_name_intro (d n : string) :
  n <> "" -> has_slash n = false -> entry_name d (d +:+ "/" +:+ n) = Some n.
Proof.
  intros Hn Hs. unfold entry_name.
  rewrite <- append_assoc, strip_prefix_app.
  destruct n as [|c n]; [congruence|]. now rewrite Hs.
Qed.

Lemma entry_name_longer (d p n : string) :
  entry_name d p = Some n -> String.length d < String.length p.
Proof.
  intros H. apply entry_name_Some in H as (-> & _ & _).
  rewrite append_length. simpl. lia.
Qed.

Lemma is_entry_of_longer (d p : string) :
  is_entry_of d p = true -> String.length d < String.length p.
Proof.
  unfold is_entry_of. destruct (entry_name d p) eqn:E; [|discriminate].
  intros _. eapply entry_name_longer; eauto.
Qed.

Lemma is_visible_entry (d p : string) :
  is_visible_entry_of d p = true -> is_entry_of d p = true.
Proof.
  unfold is_visible_entry_of, is_entry_of. now destruct (entry_name d p).
Qed.

Lemma strip_star_app (d : string) : strip_star (d +:+ "/*") = Some d.
Proof.
  induction d as [|c d IH]; [reflexivity|].
  change (String c d +:+ "/*") with (String c (d +:+ "/*")).
  cbn [strip_star]. rewrite IH.
  destruct (String.eqb (String c (d +:+ "/*")) "/*") eqn:E; [|reflexivity].
  apply String.eqb_eq in E. injection E as _ E.
  apply (f_equal String.length) in E. rewrite append_length in E.
  simpl in E. lia.
Qed.

Lemma has_slash_app (s t : string) :
  has_slash (s +:+ t) = has_slash s || has_slash t.
Proof.
  induction s as [|c s IH]; simpl; [reflexivity|].
  rewrite IH. now rewrite orb_assoc.
Qed.

Lemma dirname_entry (d n : string) :
  has_slash n = false -> dirname (d +:+ "/" +:+ n) = d.
Proof.
  intros Hn. induction d as [|c d IH]; simpl in *.
  - now rewrite Hn.
  - rewrite has_slash_app. simpl. rewrite orb_true_r. now rewrite IH.
Qed.

Lemma ancestors_from_shorter (acc p a : string) :
  In a (ancestors_from acc p) ->
  String.length a < String.length acc + String.length p.
Proof.
  revert acc. induction p as [|c p IH]; intros acc; simpl; [tauto|].
  rewrite in_app_iff. intros [H|H].
  - destruct (Ascii.eqb c SLASH); [|destruct H].
    destruct acc; [destruct H|]. destruct H as [<-|[]]. lia.
  - apply IH in H. rewrite append_length in H. simpl in H. lia.
Qed.

Lemma ancestors_shorter (p a : string) :
  In a (ancestors p) -> String.length a < String.length p.
Proof. intros H. apply ancestors_from_shorter in H. simpl in H. lia. Qed.

Lemma readlines_from_line (acc l rest : string) :
  one_line l = true ->
  readlines_from acc false (l +:+ NL +:+ rest) =
  (acc +:+ l +:+ NL) :: readlines_from "" false rest.
Proof.
  revert acc. induction l as [|c l IH]; intros acc Hl.
  - reflexivity.
  - simpl in Hl. apply andb_true_iff in Hl as [Hc Hl].
    apply andb_true_iff in Hc as [Hlf Hcr].
    apply negb_true_iff in Hlf, Hcr.
    simpl. rewrite Hlf, Hcr. rewrite IH by exact Hl.
    now rewrite append_assoc.
Qed.

Lemma one_line_app (s t : string) :
  one_line (s +:+ t) = one_line s && one_line t.
Proof.
  induction s as [|c s IH]; simpl; [reflexivity|].
  rewrite IH. now rewrite andb_assoc.
Qed.

(** Text written one terminated line at a time reads back as those
    lines. *)
Lemma readlines_concat_lines (ls : list string) :
  Forall (fun l => one_line l = true) ls ->
  readlines (concat_text (map (fun l => l +:+ NL) ls)) =
  map (fun l => l +:+ NL) ls.
Proof.
  unfold readlines. induction 1 as [|l ls Hl _ IH]; [reflexivity|].
  cbn [map concat_text fold_right].
  rewrite append_assoc, readlines_from_line by exact Hl.
  f_equal. exact IH.
Qed.

(* ------------------------------------------------------------------ *)
(** *** The file-system table *)

Lemma fs_lookup_put_same p n t : fs_lookup p (fs_put p n t) = Some n.
Proof.
  induction t as [|[q m] t IH]; simpl.
  - now rewrite String.eqb_refl.
  - destruct (String.eqb q p) eqn:E; simpl.
    + now rewrite String.eqb_refl.
    + now rewrite E.
Qed.

Lemma fs_lookup_put_other p q n t :
  q <> p -> fs_lookup q (fs_put p n t) = fs_lookup q t.
Proof.
  intros Hq. induction t as [|[r m] t IH]; simpl.
  - destruct (String.eqb p q) eqn:E; [|reflexivity].
    apply String.eqb_eq in E. congruence.
  - destruct (String.eqb r p) eqn:E; simpl.
    + apply String.eqb_eq in E. subst r.
      destruct (String.eqb p q) eqn:E'; [|reflexivity].
      apply String.eqb_eq in E'. congruence.
    + now rewrite IH.
Qed.

Lemma fs_put_put p n m t : fs_put p n (fs_put p m t) = fs_put p n t.
Proof.
  induction t as [|[q k] t IH]; simpl.
  - now rewrite String.eqb_refl.
  - destruct (String.eqb q p) eqn:E; simpl.
    + now rewrite String.eqb_refl.
    + now rewrite E, IH.
Qed.

Lemma fs_put_absent p n t :
  fs_lookup p t = None -> fs_put p n t = t ++ [(p, n)].
Proof.
  induction t as [|[q k] t IH]; simpl; [reflexivity|].
  destruct (String.eqb q p); [discriminate|]. intros H. now rewrite IH.
Qed.

Lemma fs_lookup_None p t : fs_lookup p t = None <-> ~ In p (map fst t).
Proof.
  induction t as [|[q k] t IH]; simpl; [tauto|].
  destruct (String.eqb q p) eqn:E.
  - apply String.eqb_eq in E. split; [discriminate|]. intros H. tauto.
  - apply String.eqb_neq in E. rewrite IH. tauto.
Qed.

Lemma fs_lookup_In p n t : fs_lookup p t = Some n -> In (p, n) t.
Proof.
  induction t as [|[q k] t IH]; simpl; [discriminate|].
  destruct (String.eqb q p) eqn:E.
  - apply String.eqb_eq in E. intros H. injection H as ->. left. now subst.
  - auto.
Qed.

Lemma fs_lookup_app p t u :
  fs_lookup p (t ++ u) =
  match fs_lookup p t with Some n => Some n | None => fs_lookup p u end.
Proof.
  induction t as [|[q k] t IH]; simpl; [reflexivity|].
  now destruct (String.eqb q p).
Qed.

Lemma fs_delete_keys p q t :
  In q (map fst (fs_delete p t)) <-> In q (map fst t) /\ q <> p.
Proof.
  unfold fs_delete. rewrite !in_map_iff. split.
  - intros ([r k] & <- & H). apply filter_In in H as [H E].
    simpl in *. apply negb_true_iff, String.eqb_neq in E. split; [|exact E].
    now exists (r, k).
  - intros (([r k] & <- & H) & E). exists (r, k). split; [reflexivity|].
    apply filter_In. split; [exact H|].
    simpl in *. now apply negb_true_iff, String.eqb_neq.
Qed.

Lemma fs_lookup_delete_other p q t :
  q <> p -> fs_lookup q (fs_delete p t) = fs_lookup q t.
Proof.
  intros Hq. induction t as [|[r k] t IH]; simpl; [reflexivity|].
  destruct (String.eqb r p) eqn:E; simpl.
  - apply String.eqb_eq in E. subst r.
    destruct (String.eqb p q) eqn:E'; [|exact IH].
    apply String.eqb_eq in E'. congruence.
  - now rewrite IH.
Qed.

Lemma fs_lookup_delete_None p q t :
  fs_lookup q t = None -> fs_lookup q (fs_delete p t) = None.
Proof.
  rewrite !fs_lookup_None, fs_delete_keys. tauto.
Qed.

Lemma fs_lookup_delete_same p t : fs_lookup p (fs_delete p t) = None.
Proof. rewrite fs_lookup_None, fs_delete_keys. tauto. Qed.

Lemma dir_contents_app d t u :
  dir_contents d (t ++ u) = dir_contents d t ++ dir_contents d u.
Proof. apply filter_app. Qed.

Lemma dir_contents_nil d t :
  dir_contents d t = [] <->
  forall p, In p (map fst t) -> is_entry_of d p = false.
Proof.
  unfold dir_contents. split.
  - intros H p Hp. apply in_map_iff in Hp as ([q k] & <- & Hq).
    destruct (is_entry_of d (fst (q, k))) eqn:E; [|reflexivity].
    assert (In (q, k) (filter (fun e => is_entry_of d (fst e)) t))
      by (apply filter_In; auto).
    rewrite H in *. contradiction.
  - intros H. induction t as [|[q k] t IH]; [reflexivity|].
    simpl. rewrite (H q) by (simpl; auto).
    apply IH. intros p Hp. apply H. simpl. auto.
Qed.

Lemma dir_contents_delete_nil d p t :
  dir_contents d t = [] -> dir_contents d (fs_delete p t) = [].
Proof.
  rewrite !dir_contents_nil. intros H q Hq.
  apply fs_delete_keys in Hq. apply H. tauto.
Qed.

Lemma dir_contents_dirs d (l : list string) :
  (forall a, In a l -> String.length a <= String.length d) ->
  dir_contents d (map (fun a => (a, Dir)) l) = [].
Proof.
  intros H. apply dir_contents_nil. intros p Hp.
  rewrite map_map, map_id in Hp.
  destruct (is_entry_of d p) eqn:E; [|reflexivity].
  apply is_entry_of_longer in E. apply H in Hp. lia.
Qed.

Lemma dir_contents_absent d p t :
  dir_contents d t = [] -> is_entry_of d p = true -> fs_lookup p t = None.
Proof.
  rewrite dir_contents_nil, fs_lookup_None. intros H E Hp.
  apply H in Hp. congruence.
Qed.

(* ------------------------------------------------------------------ *)
(** *** The loader *)

Lemma fold_append_records (f acc : list (string * string)) :
  fold_left (fun sequence fl => sequence ++ [(fst fl, snd fl)]) f acc = acc ++ f.
Proof.
  revert acc. induction f as [|[a b] f IH]; intros acc; simpl.
  - now rewrite app_nil_r.
  - rewrite IH, <- app_assoc. reflexivity.
Qed.

Lemma glob_paths_dir d t :
  fs_lookup d t = Some Dir -> glob_paths (d +:+ "/*") t = visible_entries d t.
Proof. intros H. unfold glob_paths. now rewrite strip_star_app, H. Qed.

Lemma glob_paths_not_dir d t :
  fs_lookup d t <> Some Dir -> glob_paths (d +:+ "/*") t = [].
Proof.
  intros H. unfold glob_paths. rewrite strip_star_app.
  destruct (fs_lookup d t) as [[|]|]; congruence.
Qed.

Lemma glob_paths_visible d t p :
  In p (glob_paths (d +:+ "/*") t) ->
  In p (map fst t) /\ is_visible_entry_of d p = true.
Proof.
  unfold glob_paths. rewrite strip_star_app.
  destruct (fs_lookup d t) as [[|]|]; try contradiction.
  intros H. apply filter_In in H. exact H.
Qed.

Lemma load_input_eq {U : Type} d (w : World U) :
  _load_input d w =
  match glob_paths (d +:+ "/*") (fs w) with
  | [] => (Ok (map (pair "<stdin>") (stdin_lines (stdin w))),
           mkWorld (fs w) "" (trace w) (user w))
  | files => (read_files (fs w) files, w)
  end.
Proof.
  unfold _load_input, bind, glob_glob, fileinput_input, ret.
  destruct (glob_paths (d +:+ "/*") (fs w)) as [|p files].
  - now rewrite fold_append_records.
  - destruct (read_files (fs w) (p :: files)); [|reflexivity].
    now rewrite fold_append_records.
Qed.

Lemma load_input_frame {U : Type} d (w w' : World U) r :
  _load_input d w = (r, w') ->
  fs w' = fs w /\ trace w' = trace w /\ user w' = user w.
Proof.
  rewrite load_input_eq.
  destruct (glob_paths (d +:+ "/*") (fs w)); intros H; injection H as _ <-;
    auto.
Qed.

Lemma read_files_ok t files recs :
  read_files t files = Ok recs ->
  recs = flat_map (records_of t) files /\ Forall (is_regular t) files.
Proof.
  revert recs. induction files as [|p files IH]; intros recs; simpl.
  - intros H. injection H as <-. auto.
  - unfold records_of.
    destruct (fs_lookup p t) as [[c|]|] eqn:E; try discriminate.
    destruct (read_files t files) as [r|]; [|discriminate].
    intros H. injection H as <-. destruct (IH r eq_refl) as [-> HF].
    split; [reflexivity|]. constructor; [now exists c|exact HF].
Qed.

Lemma read_files_regular t files :
  Forall (is_regular t) files ->
  read_files t files = Ok (flat_map (records_of t) files).
Proof.
  induction 1 as [|p files [c Hc] _ IH]; simpl; [reflexivity|].
  unfold records_of. now rewrite Hc, IH.
Qed.

Lemma read_files_irregular t files p :
  In p files -> ~ is_regular t p -> exists e, read_files t files = Raise e.
Proof.
  induction files as [|q files IH]; simpl; [tauto|].
  intros Hin Hp.
  destruct (fs_lookup q t) as [[c|]|] eqn:E; eauto.
  destruct Hin as [->|Hin].
  - exfalso. apply Hp. now exists c.
  - destruct (IH Hin Hp) as [e ->]. eauto.
Qed.

Lemma glob_paths_NoDup d t :
  NoDup (map fst t) -> NoDup (glob_paths (d +:+ "/*") t).
Proof.
  intros H. unfold glob_paths. rewrite strip_star_app.
  destruct (fs_lookup d t) as [[|]|]; try constructor.
  now apply NoDup_filter.
Qed.

Lemma records_of_keys t p r : In r (records_of t p) -> fst r = p.
Proof.
  unfold records_of. destruct (fs_lookup p t) as [[c|]|]; try contradiction.
  intros H. apply in_map_iff in H as (l & <- & _). reflexivity.
Qed.

Lemma flat_map_records_keys t files r :
  In r (flat_map (records_of t) files) -> In (fst r) files.
Proof.
  rewrite in_flat_map. intros (p & Hp & Hr).
  apply records_of_keys in Hr. now subst.
Qed.

(** In the records of distinct files, those of one file form one block. *)
Lemma flat_map_records_block t files p :
  NoDup files -> In p files ->
  exists pre post,
    flat_map (records_of t) files = pre ++ records_of t p ++ post /\
    (forall r, In r (pre ++ post) -> fst r <> p).
Proof.
  intros Hnd Hin. apply in_split in Hin as (f1 & f2 & ->).
  exists (flat_map (records_of t) f1), (flat_map (records_of t) f2). split.
  - rewrite flat_map_app. simpl. reflexivity.
  - apply NoDup_remove_2 in Hnd. intros r Hr E. apply Hnd.
    rewrite in_app_iff in *. subst p.
    destruct Hr as [Hr|Hr]; apply flat_map_records_keys in Hr; auto.
Qed.

Lemma insort_fst {V : Type} (x : string * V) (l : list (string * V)) :
  map fst (insort (fun r => fst r) String.ltb x l) =
  insort (fun k => k) String.ltb (fst x) (map fst l).
Proof.
  induction l as [|y l IH]; [reflexivity|].
  simpl. destruct (String.ltb (fst y) (fst x)); [|reflexivity].
  simpl. now rewrite IH.
Qed.

Lemma shuffle_fst {V : Type} (l : list (string * V)) :
  map fst (_shuffle_and_sort l) = sorted (fun k => k) String.ltb (map fst l).
Proof.
  induction l as [|x l IH]; [reflexivity|].
  unfold _shuffle_and_sort in *. simpl. now rewrite insort_fst, IH.
Qed.

(* ------------------------------------------------------------------ *)
(** *** Worlds *)

Lemma evolve_id {U : Type} (w : World U) : evolve w (fs w) [] = w.
Proof. destruct w. unfold evolve. simpl. now rewrite app_nil_r. Qed.

Lemma evolve_evolve {U : Type} (w : World U) t ev t' ev' :
  evolve (evolve w t ev) t' ev' = evolve w t' (ev ++ ev').
Proof. unfold evolve. simpl. now rewrite app_assoc. Qed.

Lemma log_evolve {U : Type} (w : World U) e t : log e t w = evolve w t [e].
Proof. reflexivity. Qed.

(* ------------------------------------------------------------------ *)
(** *** Resetting the output directory *)

Lemma fs_delete_all_keys ps q t :
  In q (map fst (fs_delete_all ps t)) <-> In q (map fst t) /\ ~ In q ps.
Proof.
  unfold fs_delete_all. revert t.
  induction ps as [|p ps IH]; intros t; simpl; [tauto|].
  rewrite IH, fs_delete_keys. intuition congruence.
Qed.

Lemma fs_lookup_delete_all_other ps q t :
  ~ In q ps -> fs_lookup q (fs_delete_all ps t) = fs_lookup q t.
Proof.
  unfold fs_delete_all. revert t.
  induction ps as [|p ps IH]; intros t Hq; simpl; [reflexivity|].
  simpl in Hq. rewrite IH by tauto.
  apply fs_lookup_delete_other. intros ->. tauto.
Qed.

Lemma fs_lookup_delete_all_None ps q t :
  fs_lookup q t = None -> fs_lookup q (fs_delete_all ps t) = None.
Proof. rewrite !fs_lookup_None, fs_delete_all_keys. tauto. Qed.

Lemma for_each_remove {U : Type} (files : list string) (w w' : World U) r :
  for_each os_remove files w = (r, w') ->
  exists gone,
    w' = evolve w (fs_delete_all gone (fs w)) (map EvRemove gone) /\
    incl gone files /\
    (r = Ok tt -> gone = files).
Proof.
  revert w. induction files as [|p files IH]; intros w; simpl.
  - unfold ret. intros H. injection H as <- <-. exists [].
    split; [symmetry; apply evolve_id|]. split; [apply incl_refl|auto].
  - unfold bind at 1. unfold os_remove at 1.
    destruct (fs_lookup p (fs w)) as [[c|]|] eqn:E.
    + intros H. apply IH in H as (gone & -> & Hincl & Hall).
      exists (p :: gone). rewrite log_evolve, evolve_evolve. split; [reflexivity|].
      split; [intros x [->|Hx]; simpl; auto|].
      intros Hr. now rewrite Hall.
    + intros H. injection H as <- <-. exists [].
      split; [symmetry; apply evolve_id|]. split; [intros x []|discriminate].
    + intros H. injection H as <- <-. exists [].
      split; [symmetry; apply evolve_id|]. split; [intros x []|discriminate].
Qed.

Lemma os_rmdir_inv {U : Type} (d : string) (w w' : World U) r :
  os_rmdir d w = (r, w') ->
  (r = Ok tt /\ fs_lookup d (fs w) = Some Dir /\ dir_contents d (fs w) = [] /\
   w' = evolve w (fs_delete d (fs w)) [EvRmdir d]) \/
  (r <> Ok tt /\ w' = w).
Proof.
  unfold os_rmdir, os_listdir.
  destruct (fs_lookup d (fs w)) as [[c|]|]; intros H;
    try (injection H as <- <-; right; split; [discriminate|reflexivity]).
  destruct (dir_contents d (fs w)) eqn:E; simpl in H; injection H as <- <-.
  - left. auto.
  - right. split; [discriminate|reflexivity].
Qed.

Lemma os_makedirs_inv {U : Type} (d : string) (w w' : World U) r :
  os_makedirs d w = (r, w') ->
  (r = Ok tt /\ d <> "" /\ fs_lookup d (fs w) = None /\
   exists made,
     incl made (ancestors d) /\
     (forall a, In a made -> fs_lookup a (fs w) = None) /\
     w' = evolve w (fs w ++ map (fun a => (a, Dir)) made ++ [(d, Dir)])
                 [EvMakedirs d]) \/
  (r <> Ok tt /\ w' = w).
Proof.
  unfold os_makedirs.
  destruct d as [|c d]; [intros H; injection H as <- <-; right; split;
                         [discriminate|reflexivity]|].
  destruct (fs_lookup (String c d) (fs w)) eqn:E;
    [intros H; injection H as <- <-; right; split; [discriminate|reflexivity]|].
  destruct (blocked_by_file _ (fs w));
    [intros H; injection H as <- <-; right; split; [discriminate|reflexivity]|].
  intros H. injection H as <- <-. left.
  split; [reflexivity|]. split; [discriminate|]. split; [reflexivity|].
  eexists. split; [|split; [|reflexivity]].
  - intros a Ha. apply filter_In in Ha. tauto.
  - intros a Ha. apply filter_In in Ha as [_ Ha].
    unfold fs_exists in Ha. now destruct (fs_lookup a (fs w)).
Qed.

(** What a successful [os.makedirs d] leaves: [d] is a directory, and
    nothing became an entry of [d]. *)
Lemma makedirs_table d t made :
  fs_lookup d t = None -> incl made (ancestors d) ->
  let t' := t ++ map (fun a => (a, Dir)) made ++ [(d, Dir)] in
  fs_lookup d t' = Some Dir /\
  dir_contents d t' = dir_contents d t /\
  (forall q, fs_lookup q t = None -> ~ In q (ancestors d) -> q <> d ->
             fs_lookup q t' = None).
Proof.
  intros Hd Hmade. cbv zeta. split; [|split].
  - rewrite !fs_lookup_app, Hd.
    replace (fs_lookup d (map (fun a => (a, Dir)) made)) with (@None node).
    + simpl. now rewrite String.eqb_refl.
    + symmetry. apply fs_lookup_None. rewrite map_map, map_id.
      intros Hin. apply Hmade, ancestors_shorter in Hin. lia.
  - rewrite !dir_contents_app.
    rewrite dir_contents_dirs.
    + unfold dir_contents at 2. simpl.
      destruct (is_entry_of d d) eqn:E.
      * apply is_entry_of_longer in E. lia.
      * now rewrite app_nil_r.
    + intros a Ha. apply Hmade, ancestors_shorter in Ha. lia.
  - intros q Hq Hanc Hne. rewrite !fs_lookup_app, Hq.
    replace (fs_lookup q (map (fun a => (a, Dir)) made)) with (@None node).
    + simpl. destruct (String.eqb d q) eqn:E; [|reflexivity].
      apply String.eqb_eq in E. congruence.
    + symmetry. apply fs_lookup_None. rewrite map_map, map_id.
      intros Hin. apply Hanc, Hmade, Hin.
Qed.

Lemma create_output_directory_existing {U : Type} (d : string) (w w' : World U) :
  fs_exists d (fs w) = true ->
  _create_output_directory d w = (Ok tt, w') ->
  exists t,
    w' = evolve w t (map EvRemove (os_listdir d (fs w))
                     ++ [EvRmdir d; EvMakedirs d]) /\
    d <> "" /\
    fs_lookup d t = Some Dir /\
    dir_contents d t = [].
Proof.
  intros Hex. unfold _create_output_directory.
  unfold bind at 1. unfold bind at 1. unfold os_path_exists at 1.
  rewrite Hex. unfold bind at 1. unfold glob_glob at 1.
  unfold bind at 1.
  destruct (for_each os_remove (glob_paths (d +:+ "/*") (fs w)) w)
    as [[[]|e] w1] eqn:Hrm; [|discriminate].
  apply for_each_remove in Hrm as (gone & -> & _ & Hall).
  specialize (Hall eq_refl). subst gone.
  set (files := glob_paths (d +:+ "/*") (fs w)) in *.
  destruct (os_rmdir d (evolve w (fs_delete_all files (fs w)) (map EvRemove files)))
    as [r2 w2] eqn:Hrd.
  apply os_rmdir_inv in Hrd as [(-> & Hdir & Hempty & ->)|(Hr & ->)];
    [|destruct r2 as [[]|]; [congruence|discriminate]].
  simpl in Hdir, Hempty.
  intros Hmk. apply os_makedirs_inv in Hmk
    as [(_ & Hne & Hnone & made & Hmade & _ & ->)|(Hr & _)]; [|congruence].
  simpl in Hnone. rewrite !evolve_evolve. simpl fs.
  (* the directory was listed as a directory, visible entries only *)
  assert (Hd : fs_lookup d (fs w) = Some Dir).
  { destruct (in_dec string_dec d files) as [Hin|Hout].
    - apply glob_paths_visible in Hin as [_ Hv].
      apply is_visible_entry, is_entry_of_longer in Hv. lia.
    - now rewrite fs_lookup_delete_all_other in Hdir. }
  assert (Hfiles : files = os_listdir d (fs w)).
  { unfold files. rewrite glob_paths_dir by exact Hd.
    unfold visible_entries, os_listdir, dir_contents.
    (* a hidden entry would have survived and blocked [rmdir] *)
    assert (Hvis : forall p, In p (map fst (fs w)) ->
                             is_entry_of d p = is_visible_entry_of d p).
    { intros p Hp. destruct (is_visible_entry_of d p) eqn:Ev.
      - now apply is_visible_entry.
      - destruct (is_entry_of d p) eqn:Ee; [|reflexivity]. exfalso.
        rewrite dir_contents_nil in Hempty.
        enough (is_entry_of d p = false) by congruence.
        apply Hempty. apply fs_delete_all_keys.
        split; [exact Hp|]. intros Hin.
        apply glob_paths_visible in Hin as [_ Hv]. congruence. }
    clear - Hvis. induction (fs w) as [|[q k] t IH]; [reflexivity|].
    simpl. rewrite <- (Hvis q) by (simpl; auto).
    destruct (is_entry_of d q); simpl; [f_equal|];
      apply IH; intros p Hp; apply Hvis; simpl; auto. }
  destruct (makedirs_table d (fs_delete d (fs_delete_all files (fs w))) made
              Hnone Hmade) as (Hd' & Hc' & _).
  eexists. split; [|split; [exact Hne|split; [exact Hd'|]]].
  - rewrite Hfiles. reflexivity.
  - rewrite Hc'. apply dir_contents_delete_nil. exact Hempty.
Qed.

Lemma create_output_directory_fresh {U : Type} (d : string) (w w' : World U) :
  fs_exists d (fs w) = false ->
  _create_output_directory d w = (Ok tt, w') ->
  exists t,
    w' = evolve w t [EvMakedirs d] /\
    d <> "" /\
    fs_lookup d t = Some Dir /\
    dir_contents d t = dir_contents d (fs w).
Proof.
  intros Hex. unfold _create_output_directory.
  unfold bind at 1. unfold bind at 1. unfold os_path_exists at 1.
  rewrite Hex. unfold ret.
  intros Hmk. apply os_makedirs_inv in Hmk
    as [(_ & Hne & Hnone & made & Hmade & _ & ->)|(Hr & _)]; [|congruence].
  destruct (makedirs_table d (fs w) made Hnone Hmade) as (Hd' & Hc' & _).
  eexists. split; [reflexivity|]. auto.
Qed.

(** Whatever its outcome, the reset only issues removals and directory
    creations, and it creates nothing but the output directory and its
    ancestors. *)
Lemma create_output_directory_any {U : Type} (d : string) (w w' : World U) r :
  _create_output_directory d w = (r, w') ->
  exists t ev,
    w' = evolve w t ev /\
    Forall is_reset_event ev /\
    (forall q, fs_lookup q (fs w) = None -> ~ In q (ancestors d) -> q <> d ->
               fs_lookup q t = None).
Proof.
  assert (Hrm_ev : forall l, Forall is_reset_event (map EvRemove l)).
  { intros l. apply Forall_forall. intros e He.
    apply in_map_iff in He as (p & <- & _). exact I. }
  assert (Hmk : forall (w1 w2 : World U) r1,
             os_makedirs d w1 = (r1, w2) ->
             exists t ev, w2 = evolve w1 t ev /\ Forall is_reset_event ev /\
               (forall q, fs_lookup q (fs w1) = None -> ~ In q (ancestors d) ->
                          q <> d -> fs_lookup q t = None)).
  { intros w1 w2 r1 H. apply os_makedirs_inv in H
      as [(_ & Hne & Hnone & made & Hmade & _ & ->)|(_ & ->)].
    - destruct (makedirs_table d (fs w1) made Hnone Hmade) as (_ & _ & Hq).
      eexists _, _. split; [reflexivity|].
      split; [repeat constructor|exact Hq].
    - exists (fs w1), []. split; [symmetry; apply evolve_id|].
      split; [constructor|auto]. }
  unfold _create_output_directory.
  unfold bind at 1. unfold bind at 1. unfold os_path_exists at 1.
  destruct (fs_exists d (fs w)); [|unfold ret; apply Hmk].
  unfold bind at 1. unfold glob_glob at 1. unfold bind at 1.
  destruct (for_each os_remove (glob_paths (d +:+ "/*") (fs w)) w)
    as [r1 w1] eqn:Hrm.
  apply for_each_remove in Hrm as (gone & -> & _ & _).
  destruct r1 as [[]|e].
  - destruct (os_rmdir d _) as [r2 w2] eqn:Hrd.
    apply os_rmdir_inv in Hrd as [(-> & _ & _ & ->)|(Hr & ->)].
    + intros H. apply Hmk in H as (t & ev & -> & Hev & Hq).
      rewrite !evolve_evolve. eexists _, _. split; [reflexivity|]. split.
      * repeat (apply Forall_app; split);
          [apply Hrm_ev|repeat constructor|exact Hev].
      * intros q Hnone Hanc Hne. apply Hq; try assumption.
        simpl. now apply fs_lookup_delete_None, fs_lookup_delete_all_None.
    + destruct r2 as [[]|e]; [congruence|].
      intros H. injection H as <- <-. eexists _, _.
      split; [reflexivity|]. split; [apply Hrm_ev|].
      intros q Hnone _ _. now apply fs_lookup_delete_all_None.
  - intros H. injection H as <- <-. eexists _, _.
    split; [reflexivity|]. split; [apply Hrm_ev|].
    intros q Hnone _ _. now apply fs_lookup_delete_all_None.
Qed.

(* ------------------------------------------------------------------ *)
(** *** Writing the result and the marker *)

Lemma fs_put_same p n t : fs_lookup p t = Some n -> fs_put p n t = t.
Proof.
  induction t as [|[q k] t IH]; simpl; [discriminate|].
  destruct (String.eqb q p) eqn:E.
  - apply String.eqb_eq in E. intros H. injection H as ->. now subst.
  - intros H. now rewrite IH.
Qed.

Lemma result_path_dirname d : dirname (result_path d) = d.
Proof. apply (dirname_entry d "part-00000"). reflexivity. Qed.

Lemma marker_path_dirname d : dirname (marker_path d) = d.
Proof. apply (dirname_entry d "_SUCCESS"). reflexivity. Qed.

Lemma result_path_entry d : is_entry_of d (result_path d) = true.
Proof.
  unfold is_entry_of, result_path.
  change (d +:+ "/part-00000") with (d +:+ "/" +:+ "part-00000").
  rewrite entry_name_intro; [reflexivity|discriminate|reflexivity].
Qed.

Lemma marker_path_entry d : is_entry_of d (marker_path d) = true.
Proof.
  unfold is_entry_of, marker_path.
  change (d +:+ "/_SUCCESS") with (d +:+ "/" +:+ "_SUCCESS").
  rewrite entry_name_intro; [reflexivity|discriminate|reflexivity].
Qed.

Lemma result_marker_distinct d : result_path d <> marker_path d.
Proof.
  unfold result_path, marker_path. intros H.
  apply append_inv_head in H. discriminate H.
Qed.

Lemma open_w_inv {U : Type} (p : string) (w w' : World U) r :
  open_w p w = (r, w') ->
  (r = Ok tt /\ w' = evolve w (fs_put p (File "") (fs w)) [EvOpen p]) \/
  (r <> Ok tt /\ w' = w).
Proof.
  unfold open_w.
  destruct (match dirname p with
            | EmptyString => Some Dir
            | String a s => fs_lookup (String a s) (fs w)
            end) as [[c|]|];
    try (intros H; injection H as <- <-; right; split;
         [discriminate|reflexivity]).
  destruct (fs_lookup p (fs w)) as [[c|]|]; intros H; injection H as <- <-;
    try (left; split; reflexivity).
  right. split; [discriminate|reflexivity].
Qed.

Lemma open_w_ok {U : Type} (p : string) (w : World U) :
  fs_lookup (dirname p) (fs w) = Some Dir ->
  fs_lookup p (fs w) <> Some Dir ->
  open_w p w = (Ok tt, evolve w (fs_put p (File "") (fs w)) [EvOpen p]).
Proof.
  intros Hd Hp. unfold open_w.
  destruct (dirname p) as [|a s]; [|rewrite Hd]; simpl;
    destruct (fs_lookup p (fs w)) as [[c|]|]; try reflexivity;
    now contradiction Hp.
Qed.

Lemma for_each_write {U A : Type} (p : string) (g : A -> string) (l : list A) :
  forall (c : string) (w : World U),
    fs_lookup p (fs w) = Some (File c) ->
    for_each (fun x => file_write p (g x)) l w =
    (Ok tt,
     evolve w (fs_put p (File (c +:+ concat_text (map g l))) (fs w))
              (map (fun x => EvWrite p (g x)) l)).
Proof.
  induction l as [|x l IH]; intros c w Hc; simpl.
  - unfold ret. rewrite append_nil_r, (fs_put_same _ _ _ Hc), evolve_id.
    reflexivity.
  - unfold bind, file_write at 1. rewrite Hc.
    rewrite (IH (c +:+ g x)) by apply fs_lookup_put_same.
    rewrite log_evolve, evolve_evolve. simpl fs.
    now rewrite fs_put_put, append_assoc.
Qed.

Lemma save_output_inv {U V : Type} {fmt : PyFormat V} (d : string)
  (sequence : list (string * V)) (w w' : World U) r :
  _save_output d sequence w = (r, w') ->
  (r = Ok tt /\
   w' = evolve w
          (fs_put (result_path d)
                  (File (concat_text (map format_record sequence))) (fs w))
          (result_events d sequence)) \/
  (r <> Ok tt /\ w' = w).
Proof.
  unfold _save_output, with_open_w. fold (result_path d).
  destruct (open_w (result_path d) w) as [r1 w1] eqn:Ho.
  apply open_w_inv in Ho as [(-> & ->)|(Hr & ->)].
  - rewrite (for_each_write _ _ _ "") by apply fs_lookup_put_same.
    unfold file_close. simpl snd. intros H. injection H as <- <-. left.
    split; [reflexivity|].
    rewrite log_evolve, !evolve_evolve. simpl fs. now rewrite fs_put_put.
  - destruct r1 as [[]|e]; [congruence|].
    intros H. injection H as <- <-. right. split; [discriminate|reflexivity].
Qed.

Lemma create_marker_inv {U : Type} (d : string) (w w' : World U) r :
  _create_marker d w = (r, w') ->
  (r = Ok tt /\
   w' = evolve w (fs_put (marker_path d) (File "") (fs w)) (marker_events d)) \/
  (r <> Ok tt /\ w' = w).
Proof.
  unfold _create_marker, with_open_w. fold (marker_path d).
  destruct (open_w (marker_path d) w) as [r1 w1] eqn:Ho.
  apply open_w_inv in Ho as [(-> & ->)|(Hr & ->)].
  - unfold file_write, file_close. simpl fs. rewrite fs_lookup_put_same.
    simpl. intros H. injection H as <- <-. left.
    split; [reflexivity|].
    rewrite !log_evolve, !evolve_evolve. simpl fs. now rewrite fs_put_put.
  - destruct r1 as [[]|e]; [congruence|].
    intros H. injection H as <- <-. right. split; [discriminate|reflexivity].
Qed.

Lemma save_output_ok {U V : Type} {fmt : PyFormat V} (d : string)
  (sequence : list (string * V)) (w : World U) :
  fs_lookup d (fs w) = Some Dir ->
  fs_lookup (result_path d) (fs w) <> Some Dir ->
  _save_output d sequence w =
  (Ok tt,
   evolve w
     (fs_put (result_path d)
             (File (concat_text (map format_record sequence))) (fs w))
     (result_events d sequence)).
Proof.
  intros Hd Hp.
  destruct (_save_output d sequence w) as [r w'] eqn:E.
  pose proof E as E'. apply save_output_inv in E' as [(-> & ->)|(Hr & ->)];
    [reflexivity|].
  exfalso. revert E. unfold _save_output, with_open_w. fold (result_path d).
  rewrite open_w_ok; [|now rewrite result_path_dirname|exact Hp].
  rewrite (for_each_write _ _ _ "") by apply fs_lookup_put_same.
  intros H. injection H as <- _. congruence.
Qed.

(* ------------------------------------------------------------------ *)
(** *** The orchestrator *)

Lemma run_mapreduce_job_eq {U V W : Type} {fmt : PyFormat W}
  (mapper : callable U (list (string * string)) (list (string * V)))
  (reducer : callable U (list (string * V)) (list (string * W)))
  (i o : string) (w : World U) :
  run_mapreduce_job mapper reducer i o w =
  match _load_input i w with
  | (Raise e, w0) => (Raise e, w0)
  | (Ok s0, w0) =>
      match mapper s0 (user w0) with
      | (Raise e, u1) => (Raise e, with_user w0 u1)
      | (Ok s1, u1) =>
          match reducer (_shuffle_and_sort s1) u1 with
          | (Raise e, u2) => (Raise e, with_user w0 u2)
          | (Ok s2, u2) => publish o s2 (with_user w0 u2)
          end
      end
  end.
Proof.
  unfold run_mapreduce_job. unfold bind at 1.
  destruct (_load_input i w) as [[s0|e] w0]; [|reflexivity].
  unfold bind at 1. unfold call at 1.
  destruct (mapper s0 (user w0)) as [[s1|e] u1]; [|reflexivity].
  unfold bind at 1. unfold ret at 1.
  unfold bind at 1. unfold call at 1. simpl user.
  destruct (reducer (_shuffle_and_sort s1) u1) as [[s2|e] u2]; reflexivity.
Qed.

Lemma publish_inv {U W : Type} {fmt : PyFormat W} (o : string)
  (s2 : list (string * W)) (w w' : World U) r :
  publish o s2 w = (r, w') ->
  exists r0 t ev,
    _create_output_directory o w = (r0, evolve w t ev) /\
    Forall is_reset_event ev /\
    (forall q, fs_lookup q (fs w) = None -> ~ In q (ancestors o) -> q <> o ->
               fs_lookup q t = None) /\
    ((r <> Ok tt /\ w' = evolve w t ev) \/
     (r <> Ok tt /\ r0 = Ok tt /\
      w' = evolve w (fs_put (result_path o) (File (result_text s2)) t)
                    (ev ++ result_events o s2)) \/
     (r = Ok tt /\ r0 = Ok tt /\
      w' = evolve w
             (fs_put (marker_path o) (File "")
                     (fs_put (result_path o) (File (result_text s2)) t))
             (ev ++ result_events o s2 ++ marker_events o))).
Proof.
  unfold publish. unfold bind at 1.
  destruct (_create_output_directory o w) as [r0 w1] eqn:Hreset.
  destruct (create_output_directory_any _ _ _ _ Hreset)
    as (t & ev & -> & Hev & Hq).
  intros Hrun.
  exists r0, t, ev. split; [reflexivity|]. split; [exact Hev|].
  split; [exact Hq|]. revert Hrun.
  destruct r0 as [[]|e];
    [|intros Heq; injection Heq as <- <-; left; split;
      [discriminate|reflexivity]].
  unfold bind at 1.
  destruct (_save_output o s2 (evolve w t ev)) as [r1 w2] eqn:Hsave.
  apply save_output_inv in Hsave as [(-> & ->)|(Hr & ->)].
  - intros Hmark. apply create_marker_inv in Hmark as [(-> & ->)|(Hr & ->)].
    + right. right. split; [reflexivity|]. split; [reflexivity|].
      rewrite !evolve_evolve. now rewrite app_assoc.
    + right. left. split; [exact Hr|]. split; [reflexivity|].
      now rewrite evolve_evolve.
  - destruct r1 as [[]|e]; [congruence|].
    intros Heq. injection Heq as <- <-. left. split; [discriminate|reflexivity].
Qed.

(** An occurrence that is the only one fixes where a list is split. *)
Lemma split_at_only {A : Type} (x : A) (l1 l2 pre post : list A) :
  ~ In x l1 -> ~ In x l2 ->
  l1 ++ x :: l2 = pre ++ x :: post -> pre = l1 /\ post = l2.
Proof.
  revert pre. induction l1 as [|a l1 IH]; intros pre H1 H2 Heq.
  - destruct pre as [|b pre]; simpl in Heq.
    + injection Heq as ->. auto.
    + injection Heq as <- Heq. exfalso. apply H2. rewrite Heq.
      apply in_elt.
  - destruct pre as [|b pre]; simpl in Heq.
    + injection Heq as -> _. exfalso. apply H1. now left.
    + injection Heq as <- Heq.
      destruct (IH pre) as [-> ->]; auto. intros Hin. apply H1. now right.
Qed.

Lemma reset_events_no_open ev p : Forall is_reset_event ev -> ~ In (EvOpen p) ev.
Proof.
  intros H Hin. rewrite Forall_forall in H. apply (H _ Hin).
Qed.

Lemma reset_events_no_close ev p :
  Forall is_reset_event ev -> ~ In (EvClose p) ev.
Proof.
  intros H Hin. rewrite Forall_forall in H. apply (H _ Hin).
Qed.

Lemma result_events_no_marker {W : Type} {fmt : PyFormat W} (o : string)
  (s2 : list (string * W)) :
  ~ In (EvOpen (marker_path o)) (result_events o s2).
Proof.
  unfold result_events. rewrite !in_app_iff. simpl.
  intros [[H|[]]|[H|[H|[]]]]; try discriminate.
  - injection H as H. now apply result_marker_distinct in H.
  - apply in_map_iff in H as (x & Hx & _). discriminate.
Qed.

Lemma evolve_inj {U : Type} (w : World U) t ev t' ev' :
  evolve w t ev = evolve w t' ev' -> t = t' /\ ev = ev'.
Proof.
  unfold evolve. intros Heq. injection Heq as -> Hev.
  apply app_inv_head in Hev. auto.
Qed.

Lemma marker_path_longer d : String.length d < String.length (marker_path d).
Proof. apply is_entry_of_longer, marker_path_entry. Qed.

Lemma result_path_longer d : String.length d < String.length (result_path d).
Proof. apply is_entry_of_longer, result_path_entry. Qed.

(** After the reset left the directory empty, writing the result and the
    marker leaves exactly these two entries, in this order. *)
Lemma published_contents (d c : string) (t : filesystem) :
  dir_contents d t = [] ->
  dir_contents d (fs_put (marker_path d) (File "")
                         (fs_put (result_path d) (File c) t)) =
  [(result_path d, File c); (marker_path d, File "")].
Proof.
  intros Hempty.
  pose proof (dir_contents_absent _ _ _ Hempty (result_path_entry d)) as Hr.
  pose proof (dir_contents_absent _ _ _ Hempty (marker_path_entry d)) as Hm.
  rewrite (fs_put_absent _ _ _ Hr).
  rewrite fs_put_absent.
  - rewrite !dir_contents_app, Hempty. unfold dir_contents. simpl.
    now rewrite result_path_entry, marker_path_entry.
  - rewrite fs_lookup_app, Hm. simpl.
    destruct (String.eqb (result_path d) (marker_path d)) eqn:E; [|reflexivity].
    apply String.eqb_eq in E. now apply result_marker_distinct in E.
Qed.

Lemma published_directory (d c : string) (t : filesystem) :
  fs_lookup d t = Some Dir ->
  fs_lookup d (fs_put (marker_path d) (File "")
                      (fs_put (result_path d) (File c) t)) = Some Dir.
Proof.
  intros Hd. rewrite !fs_lookup_put_other; [exact Hd| |].
  - intros Heq. pose proof (result_path_longer d). rewrite <- Heq in *. lia.
  - intros Heq. pose proof (marker_path_longer d). rewrite <- Heq in *. lia.
Qed.

(** A run that completes went through every stage. *)
Lemma run_ok {U V W : Type} {fmt : PyFormat W}
  (mapper : callable U (list (string * string)) (list (string * V)))
  (reducer : callable U (list (string * V)) (list (string * W)))
  (i o : string) (w w' : World U) :
  run_mapreduce_job mapper reducer i o w = (Ok tt, w') ->
  exists s0 w0 s1 u1 s2 u2 t ev,
    _load_input i w = (Ok s0, w0) /\
    mapper s0 (user w) = (Ok s1, u1) /\
    reducer (_shuffle_and_sort s1) u1 = (Ok s2, u2) /\
    _create_output_directory o (with_user w0 u2)
      = (Ok tt, evolve (with_user w0 u2) t ev) /\
    w' = evolve (with_user w0 u2)
           (fs_put (marker_path o) (File "")
                   (fs_put (result_path o) (File (result_text s2)) t))
           (ev ++ result_events o s2 ++ marker_events o).
Proof.
  rewrite run_mapreduce_job_eq.
  destruct (_load_input i w) as [[s0|e] w0] eqn:Hload; [|discriminate].
  destruct (load_input_frame _ _ _ _ Hload) as (_ & _ & Hu). rewrite Hu.
  destruct (mapper s0 (user w)) as [[s1|e] u1] eqn:Hmap; [|discriminate].
  destruct (reducer (_shuffle_and_sort s1) u1) as [[s2|e] u2] eqn:Hred;
    [|discriminate].
  intros Hpub. apply publish_inv in Hpub
    as (r0 & t & ev & Hreset & _ & _ & [(Hr & _)|[(Hr & _)|(_ & -> & ->)]]);
    try congruence.
  exists s0, w0, s1, u1, s2, u2, t, ev. auto.
Qed.

(** Any run either stops before touching the output directory, or
    reaches the last three steps. *)
Lemma run_any {U V W : Type} {fmt : PyFormat W}
  (mapper : callable U (list (string * string)) (list (string * V)))
  (reducer : callable U (list (string * V)) (list (string * W)))
  (i o : string) (w w' : World U) r :
  run_mapreduce_job mapper reducer i o w = (r, w') ->
  (r <> Ok tt /\ fs w' = fs w /\ trace w' = trace w) \/
  (exists w1 s2,
     fs w1 = fs w /\ trace w1 = trace w /\ publish o s2 w1 = (r, w')).
Proof.
  rewrite run_mapreduce_job_eq.
  destruct (_load_input i w) as [[s0|e] w0] eqn:Hload;
    destruct (load_input_frame _ _ _ _ Hload) as (Hfs & Htr & _).
  2:{ intros Heq. injection Heq as <- <-. left.
      split; [discriminate|auto]. }
  destruct (mapper s0 (user w0)) as [[s1|e] u1].
  2:{ intros Heq. injection Heq as <- <-. left.
      split; [discriminate|auto]. }
  destruct (reducer (_shuffle_and_sort s1) u1) as [[s2|e] u2].
  2:{ intros Heq. injection Heq as <- <-. left.
      split; [discriminate|auto]. }
  intros Hpub. right. exists (with_user w0 u2), s2. auto.
Qed.

(** Two runs in a row that both complete on the same loaded sequence,
    with deterministic callables, leave the same output directory. *)
Lemma run_twice_same_output {U V W : Type} {fmt : PyFormat W}
  (mapper : callable U (list (string * string)) (list (string * V)))
  (reducer : callable U (list (string * V)) (list (string * W)))
  (i o : string) (w w1 w2 wa wb : World U) (s0 : list (string * string)) :
  deterministic mapper -> deterministic reducer ->
  (fs_exists o (fs w) = false -> dir_contents o (fs w) = []) ->
  _load_input i w = (Ok s0, wa) ->
  _load_input i w1 = (Ok s0, wb) ->
  run_mapreduce_job mapper reducer i o w = (Ok tt, w1) ->
  run_mapreduce_job mapper reducer i o w1 = (Ok tt, w2) ->
  dir_contents o (fs w2) = dir_contents o (fs w1).
Proof.
  intros Hdm Hdr Horphan Hla Hlb Hrun1 Hrun2.
  apply run_ok in Hrun1
    as (s0a & w0a & s1a & u1a & s2a & u2a & ta & eva
        & Hl1 & Hm1 & Hr1 & Hreset1 & ->).
  pose proof Hrun2 as Hrun2'. apply run_ok in Hrun2'
    as (s0b & w0b & s1b & u1b & s2b & u2b & tb & evb
        & Hl2 & Hm2 & Hr2 & Hreset2 & ->).
  rewrite Hla in Hl1. injection Hl1 as <- <-.
  rewrite Hlb in Hl2. injection Hl2 as <- <-.
  assert (s1b = s1a) as ->.
  { pose proof (Hdm s0 (user w) (user (evolve (with_user wa u2a)
       (fs_put (marker_path o) (File "")
          (fs_put (result_path o) (File (result_text s2a)) ta))
       (eva ++ result_events o s2a ++ marker_events o)))) as Hd.
    rewrite Hm1, Hm2 in Hd. simpl in Hd. now injection Hd. }
  assert (s2b = s2a) as ->.
  { pose proof (Hdr (_shuffle_and_sort s1a) u1a u1b) as Hd.
    rewrite Hr1, Hr2 in Hd. simpl in Hd. now injection Hd. }
  destruct (load_input_frame _ _ _ _ Hla) as (Hfa & _ & _).
  destruct (load_input_frame _ _ _ _ Hlb) as (Hfb & _ & _).
  assert (Ha : dir_contents o ta = [] /\ fs_lookup o ta = Some Dir).
  { destruct (fs_exists o (fs w)) eqn:Hex.
    - apply create_output_directory_existing in Hreset1
        as (t & Heq & _ & Hd & He); [|simpl; now rewrite Hfa].
      apply evolve_inj in Heq as [-> _]. auto.
    - apply create_output_directory_fresh in Hreset1
        as (t & Heq & _ & Hd & He); [|simpl; now rewrite Hfa].
      apply evolve_inj in Heq as [-> _]. simpl in He. rewrite Hfa in He.
      rewrite He. auto. }
  destruct Ha as [Ha Hda].
  assert (Hb : dir_contents o tb = []).
  { apply create_output_directory_existing in Hreset2
      as (t & Heq & _ & Hd & He).
    - apply evolve_inj in Heq as [-> _]. exact He.
    - simpl. rewrite Hfb. simpl. unfold fs_exists.
      now rewrite published_directory. }
  simpl. now rewrite !published_contents.
Qed.

Lemma identity_callable_deterministic {U A : Type} :
  deterministic (@identity_callable U A).
Proof. intros x u u'. reflexivity. Qed.

(** The two-file world run twice: the second run rewrites what the
    first one wrote. *)
Example run_twice_two_files :
  dir_contents "output"
    (fs (snd (run_mapreduce_job
                (identity_callable (A := list (string * string)))
                (identity_callable (A := list (string * string)))
                "input" "output"
                (snd (run_mapreduce_job
                        (identity_callable (A := list (string * string)))
                        (identity_callable (A := list (string * string)))
                        "input" "output" world_two_files))))) =
  dir_contents "output"
    (fs (snd (run_mapreduce_job
                (identity_callable (A := list (string * string)))
                (identity_callable (A := list (string * string)))
                "input" "output" world_two_files))).
Proof.
  eapply (run_twice_same_output
            (identity_callable (A := list (string * string)))
            (identity_callable (A := list (string * string)))
            "input" "output" world_two_files).
  - apply identity_callable_deterministic.
  - apply identity_callable_deterministic.
  - intros _. reflexivity.
  - vm_compute. reflexivity.
  - vm_compute. reflexivity.
  - vm_compute. reflexivity.
  - vm_compute. reflexivity.
Qed.

(** Values of kinds Python cannot compare with each other (an [int] and
    a [str]) under equal keys: the sort goes through and keeps their
    order. *)
Example shuffle_mixed_values :
  _shuffle_and_sort
    [("b", inl 1%Z); ("a", inr "x"); ("b", inr "y"); ("a", inl 2%Z)] =
    [("a", inr "x"); ("a", inl 2%Z); ("b", inl 1%Z); ("b", inr "y")].
Proof. reflexivity. Qed.

(* ================================================================== *)
(** * The claims *)

(** C1 (the code departs from the claim): with no input directory, or
    with one that has no entry, the loader does not return the empty
    sequence: [fileinput] falls back to standard input and the loader
    returns its lines under the name "<stdin>", consuming them. *)
Theorem C1_load_input_without_files_reads_stdin :
  _load_input "input" world_no_input =
    (Ok [("<stdin>", "hello" +:+ NL)], mkWorld [] "" [] tt) /\
  _load_input "input" world_empty_input =
    (Ok [("<stdin>", "hello" +:+ NL)], mkWorld [("input", Dir)] "" [] tt).
Proof.
  split; rewrite load_input_eq; reflexivity.
Qed.

(** C2: for every finite sequence of (key, value) pairs,
    [_shuffle_and_sort] returns the same records (a permutation of the
    input: nothing created, dropped or changed), with keys in ascending
    lexicographic order, and it is stable: for every key, the records
    carrying it appear in the output in their input order. *)
Theorem C2_shuffle_and_sort_stable {V : Type} (sequence : list (string * V)) :
  Permutation sequence (_shuffle_and_sort sequence) /\
  StronglySorted key_le (_shuffle_and_sort sequence) /\
  forall k, with_key k (_shuffle_and_sort sequence) = with_key k sequence.
Proof.
  split; [apply shuffle_perm|]. split.
  - apply Sorted_StronglySorted; [apply key_le_trans|apply shuffle_sorted].
  - intros k. apply shuffle_with_key.
Qed.

(** C3 (the code departs from the claim, and from its own docstring
    and comment, which speak of all the files of the directory): an
    entry whose name starts with a dot is not read, so the loader's
    answer is not the lines of every direct entry. *)
Lemma C3_hidden_entry_is_skipped :
  In "input/.hidden" (os_listdir "input" (fs world_hidden_input)) /\
  fst (_load_input "input" world_hidden_input) = Ok [("input/a.txt", "x" +:+ NL)] /\
  fst (_load_input "input" world_hidden_input)
    <> load_every_entry "input" (fs world_hidden_input).
Proof.
  split; [vm_compute; auto|]. split; [reflexivity|].
  vm_compute. intros H. injection H as H. discriminate H.
Qed.

(** C4: in the sequence the loader returns, the records of any one file
    form a single block, and that block is the file's lines in the
    file's own order; records of other files stand wholly before or
    after it. *)
Theorem C4_load_input_file_blocks {U : Type} (d : string) (w w' : World U)
  (recs : list (string * string)) (p : string) :
  NoDup (map fst (fs w)) ->
  _load_input d w = (Ok recs, w') ->
  file_block (fs w) (glob_paths (d +:+ "/*") (fs w)) recs p.
Proof.
  intros Hnd. rewrite load_input_eq. unfold file_block.
  pose proof (glob_paths_NoDup d _ Hnd) as Hg.
  destruct (glob_paths (d +:+ "/*") (fs w)) as [|q files] eqn:E.
  - intros H. injection H as <- _.
    destruct (string_dec p "<stdin>") as [->|Hp].
    + exists [], (map (pair "<stdin>") (stdin_lines (stdin w))), [].
      rewrite app_nil_r. repeat split; try contradiction.
      intros r Hr. apply in_map_iff in Hr as (l & <- & _). reflexivity.
    + exists (map (pair "<stdin>") (stdin_lines (stdin w))), [], [].
      rewrite !app_nil_r. repeat split; try contradiction.
      intros r Hr. apply in_map_iff in Hr as (l & <- & _). simpl. congruence.
  - intros H. injection H as H _.
    apply (read_files_ok (fs w) (q :: files)) in H as [-> _].
    destruct (in_dec string_dec p (q :: files)) as [Hin|Hout].
    + destruct (flat_map_records_block (fs w) _ p Hg Hin)
        as (pre & post & Heq & Hother).
      exists pre, (records_of (fs w) p), post. repeat split.
      * exact Heq.
      * intros r. apply records_of_keys.
      * exact Hother.
      * intros c Hc _. unfold records_of. now rewrite Hc.
    + exists (flat_map (records_of (fs w)) (q :: files)), [], [].
      rewrite !app_nil_r. repeat split; try contradiction.
      intros r Hr Heq. apply flat_map_records_keys in Hr. congruence.
Qed.

Lemma C4_load_input_file_blocks_witness :
  file_block (fs world_two_files)
    (glob_paths ("input" +:+ "/*") (fs world_two_files))
    [("input/b.txt", "dog" +:+ NL); ("input/b.txt", "cat" +:+ NL);
     ("input/a.txt", "cat" +:+ NL); ("input/a.txt", "emu")]
    "input/a.txt".
Proof.
  apply (C4_load_input_file_blocks "input" world_two_files world_two_files).
  - simpl. repeat constructor; simpl; intuition discriminate.
  - reflexivity.
Defined.

(** C5, as written, fails: a record whose value holds a line break is
    written as more than one line; one record gives a file of two
    lines. *)
Lemma C5_value_with_line_break_spans_two_lines :
  fs_lookup (result_path "output")
    (fs (snd (_save_output "output" [("a", "x" +:+ NL)] world_output_ready)))
    = Some (File ("a" +:+ TAB +:+ "x" +:+ NL +:+ NL)) /\
  List.length (readlines ("a" +:+ TAB +:+ "x" +:+ NL +:+ NL)) = 2 /\
  List.length [("a", "x" +:+ NL)] = 1.
Proof. repeat split. Qed.

(** C5, amended: the writer puts, for each record of the sequence it is
    given and in the order of that sequence, the text key, tab, value,
    newline into the single file [part-00000], and touches no other
    path.  This is one line per record when neither key nor value holds
    a line break.  In a run that completes, the sequence written is the
    one the reducer returned. *)
Theorem C5_save_output_writes_records_in_order {U V : Type} {fmt : PyFormat V}
  (d : string) (sequence : list (string * V)) (w : World U) :
  fs_lookup d (fs w) = Some Dir ->
  fs_lookup (result_path d) (fs w) <> Some Dir ->
  _save_output d sequence w =
    (Ok tt,
     evolve w
       (fs_put (result_path d)
               (File (concat_text (map format_record sequence))) (fs w))
       ([EvOpen (result_path d)]
        ++ map (fun r => EvWrite (result_path d)
                           (fst r +:+ TAB +:+ py_format (snd r) +:+ NL))
               sequence
        ++ [EvClose (result_path d)])) /\
  (Forall fields_one_line sequence ->
   readlines (concat_text (map format_record sequence)) =
   map format_record sequence) /\
  (forall (V0 : Type)
          (mapper : callable U (list (string * string)) (list (string * V0)))
          (reducer : callable U (list (string * V0)) (list (string * V)))
          (i : string) (w0 w' : World U),
      run_mapreduce_job mapper reducer i d w0 = (Ok tt, w') ->
      exists s0 w1 s1 u1 s2 u2,
        _load_input i w0 = (Ok s0, w1) /\
        mapper s0 (user w0) = (Ok s1, u1) /\
        reducer (_shuffle_and_sort s1) u1 = (Ok s2, u2) /\
        fs_lookup (result_path d) (fs w')
          = Some (File (concat_text (map format_record s2)))).
Proof.
  intros Hd Hp. split; [|split].
  - now apply save_output_ok.
  - intros Hone.
    assert (Hmap : map format_record sequence =
                   map (fun l => l +:+ NL)
                       (map (fun r => py_format (fst r) +:+ TAB
                                      +:+ py_format (snd r)) sequence)).
    { rewrite map_map. apply map_ext. intros r. unfold format_record.
      now rewrite !append_assoc. }
    rewrite Hmap. apply readlines_concat_lines.
    apply Forall_map. eapply Forall_impl; [|exact Hone].
    intros r [Hk Hv]. rewrite !one_line_app, Hk, Hv. reflexivity.
  - intros V0 mapper reducer i w0 w' Hrun.
    apply run_ok in Hrun
      as (s0 & w1 & s1 & u1 & s2 & u2 & t & ev & Hl & Hm & Hr & _ & ->).
    exists s0, w1, s1, u1, s2, u2. repeat (split; [assumption|]).
    simpl. rewrite fs_lookup_put_other by apply result_marker_distinct.
    apply fs_lookup_put_same.
Qed.

Lemma C5_save_output_writes_records_in_order_witness :
  _save_output "output" [("dog", 1%Z); ("cat", 2%Z)] world_output_ready =
    (Ok tt,
     mkWorld [("output", Dir);
              ("output/part-00000",
               File ("dog" +:+ TAB +:+ "1" +:+ NL +:+ "cat" +:+ TAB +:+ "2" +:+ NL))]
             ""
             [EvOpen "output/part-00000";
              EvWrite "output/part-00000" ("dog" +:+ TAB +:+ "1" +:+ NL);
              EvWrite "output/part-00000" ("cat" +:+ TAB +:+ "2" +:+ NL);
              EvClose "output/part-00000"]
             tt) /\
  readlines ("dog" +:+ TAB +:+ "1" +:+ NL +:+ "cat" +:+ TAB +:+ "2" +:+ NL) =
    ["dog" +:+ TAB +:+ "1" +:+ NL; "cat" +:+ TAB +:+ "2" +:+ NL].
Proof.
  destruct (C5_save_output_writes_records_in_order
              "output" [("dog", 1%Z); ("cat", 2%Z)] world_output_ready)
    as (Hsave & Hlines & _).
  - reflexivity.
  - discriminate.
  - split; [exact Hsave|]. apply Hlines.
    repeat constructor.
Defined.

(** C6, as written, fails: when the mapper raises, the run stops before
    the output directory is reset, and the marker an earlier run left
    is still there after the failed run. *)
Lemma C6_stale_marker_survives_failed_run :
  fst (run_mapreduce_job
         (failing_callable (B := list (string * string)) (UserError "boom"))
         (identity_callable (A := list (string * string)))
         "input" "output" world_stale_output)
    = Raise (UserError "boom") /\
  fs_lookup (marker_path "output")
    (fs (snd (run_mapreduce_job
                (failing_callable (B := list (string * string)) (UserError "boom"))
                (identity_callable (A := list (string * string)))
                "input" "output" world_stale_output)))
    = Some (File "").
Proof. split; reflexivity. Qed.

(** C6, amended: in every run, whatever its outcome, the marker is
    opened only after the result file was closed, and from then on only
    the marker itself is written and closed.  After a run that completed
    the marker exists; after a run that started with no marker in place,
    the marker exists if and only if the run completed without error. *)
Theorem C6_marker_written_after_result_closed {U V W : Type} {fmt : PyFormat W}
  (mapper : callable U (list (string * string)) (list (string * V)))
  (reducer : callable U (list (string * V)) (list (string * W)))
  (i o : string) (w w' : World U) (r : result unit) :
  run_mapreduce_job mapper reducer i o w = (r, w') ->
  (exists ev,
     trace w' = trace w ++ ev /\
     forall pre post,
       ev = pre ++ EvOpen (marker_path o) :: post ->
       In (EvClose (result_path o)) pre /\
       post = [EvWrite (marker_path o) ""; EvClose (marker_path o)]) /\
  (r = Ok tt -> fs_lookup (marker_path o) (fs w') = Some (File "")) /\
  (fs_lookup (marker_path o) (fs w) = None ->
   (fs_lookup (marker_path o) (fs w') <> None <-> r = Ok tt)).
Proof.
  intros Hrun.
  assert (Hanc : ~ In (marker_path o) (ancestors o)).
  { intros Hin. apply ancestors_shorter in Hin.
    pose proof (marker_path_longer o). lia. }
  assert (Hne : marker_path o <> o).
  { intros Heq. pose proof (marker_path_longer o). rewrite Heq in *. lia. }
  apply run_any in Hrun as [(Hr & Hfs & Htr)|(w1 & s2 & Hfs & Htr & Hpub)].
  - split; [|split].
    + exists []. rewrite app_nil_r. split; [exact Htr|].
      intros [|] post Heq; discriminate.
    + intros ->. congruence.
    + intros Hnone. rewrite Hfs, Hnone. split; congruence.
  - apply publish_inv in Hpub
      as (r0 & t & ev & _ & Hev & Hq
          & [(Hr & ->)|[(Hr & _ & ->)|(-> & _ & ->)]]);
      rewrite Hfs in Hq; unfold evolve; cbn [fs trace]; rewrite Htr.
    + split; [|split].
      * exists ev. split; [reflexivity|]. intros pre post ->.
        exfalso. eapply reset_events_no_open; [exact Hev|]. apply in_elt.
      * intros ->. congruence.
      * intros Hnone. rewrite (Hq _ Hnone Hanc Hne). split; congruence.
    + split; [|split].
      * eexists. split; [reflexivity|]. intros pre post Heq. exfalso.
        assert (Hin : In (EvOpen (marker_path o)) (ev ++ result_events o s2))
          by (rewrite Heq; apply in_elt).
        apply in_app_or in Hin as [Hin|Hin].
        -- eapply reset_events_no_open; eauto.
        -- eapply result_events_no_marker; eauto.
      * intros ->. congruence.
      * intros Hnone.
        rewrite fs_lookup_put_other
          by (intros Heq; symmetry in Heq; now apply result_marker_distinct in Heq).
        rewrite (Hq _ Hnone Hanc Hne). split; congruence.
    + split; [|split].
      * eexists. split; [reflexivity|]. intros pre post Heq.
        unfold marker_events in Heq.
        rewrite app_assoc in Heq.
        change (?a ++ [?x; ?y; ?z]) with (a ++ x :: [y; z]) in Heq.
        apply split_at_only in Heq as [-> ->].
        -- split; [|reflexivity]. apply in_or_app. right.
           unfold result_events. rewrite !in_app_iff. simpl. auto.
        -- intros Hin. apply in_app_or in Hin as [Hin|Hin].
           ++ eapply reset_events_no_open; eauto.
           ++ eapply result_events_no_marker; eauto.
        -- simpl. intros [Hin|[Hin|[]]]; discriminate.
      * intros _. apply fs_lookup_put_same.
      * intros _. rewrite fs_lookup_put_same. split; [reflexivity|discriminate].
Qed.

Lemma C6_marker_written_after_result_closed_witness :
  fs_lookup (marker_path "output") (fs world_two_files) = None /\
  (fs_lookup (marker_path "output")
     (fs (snd (run_mapreduce_job
                 (identity_callable (A := list (string * string)))
                 (identity_callable (A := list (string * string)))
                 "input" "output" world_two_files))) <> None
   <->
   fst (run_mapreduce_job
          (identity_callable (A := list (string * string)))
          (identity_callable (A := list (string * string)))
          "input" "output" world_two_files) = Ok tt).
Proof.
  split; [reflexivity|].
  destruct (C6_marker_written_after_result_closed
              (identity_callable (A := list (string * string)))
              (identity_callable (A := list (string * string)))
              "input" "output" world_two_files _ _
              (surjective_pairing _)) as (_ & _ & Hiff).
  apply Hiff. reflexivity.
Defined.

(** C7: when the output directory exists before the run, whatever it
    holds, a run that completes has removed every entry it held, removed
    the directory, created it again, and written the result and then the
    marker; afterwards the directory holds exactly these two entries,
    the new result file, whose text is the reducer's sequence as the
    writer formats it, and the empty marker.  (Directory names without
    glob metacharacters.) *)
Theorem C7_output_directory_holds_only_new_files {U V W : Type}
  {fmt : PyFormat W}
  (mapper : callable U (list (string * string)) (list (string * V)))
  (reducer : callable U (list (string * V)) (list (string * W)))
  (i o : string) (w w' : World U) :
  has_magic i = false ->
  has_magic o = false ->
  fs_exists o (fs w) = true ->
  run_mapreduce_job mapper reducer i o w = (Ok tt, w') ->
  exists s0 w0 s1 u1 s2 u2,
    _load_input i w = (Ok s0, w0) /\
    mapper s0 (user w) = (Ok s1, u1) /\
    reducer (_shuffle_and_sort s1) u1 = (Ok s2, u2) /\
    trace w' =
      trace w ++ map EvRemove (os_listdir o (fs w))
              ++ [EvRmdir o; EvMakedirs o]
              ++ result_events o s2 ++ marker_events o /\
    fs_lookup o (fs w') = Some Dir /\
    dir_contents o (fs w') =
      [(result_path o, File (result_text s2)); (marker_path o, File "")].
Proof.
  intros _ _ Hex Hrun.
  apply run_ok in Hrun
    as (s0 & w0 & s1 & u1 & s2 & u2 & t & ev & Hl & Hm & Hr & Hreset & ->).
  destruct (load_input_frame _ _ _ _ Hl) as (Hfs & Htr & _).
  apply create_output_directory_existing in Hreset
    as (t' & Heq & _ & Hd & Hempty); [|cbn [with_user fs]; now rewrite Hfs].
  apply evolve_inj in Heq as [-> ->].
  exists s0, w0, s1, u1, s2, u2. repeat (split; [assumption|]).
  unfold evolve, with_user. cbn [fs trace]. split; [|split].
  - rewrite Htr, Hfs, <- !app_assoc. reflexivity.
  - now apply published_directory.
  - now apply published_contents.
Qed.

Lemma C7_output_directory_holds_only_new_files_witness :
  exists s0 w0 s1 u1 s2 u2,
    _load_input "input" world_stale_output = (Ok s0, w0) /\
    identity_callable s0 (user world_stale_output) = (Ok s1, u1) /\
    identity_callable (_shuffle_and_sort s1) u1 = (Ok s2, u2) /\
    trace (snd (run_mapreduce_job
                  (identity_callable (A := list (string * string)))
                  (identity_callable (A := list (string * string)))
                  "input" "output" world_stale_output)) =
      trace world_stale_output
      ++ map EvRemove (os_listdir "output" (fs world_stale_output))
      ++ [EvRmdir "output"; EvMakedirs "output"]
      ++ result_events "output" s2 ++ marker_events "output" /\
    fs_lookup "output"
      (fs (snd (run_mapreduce_job
                  (identity_callable (A := list (string * string)))
                  (identity_callable (A := list (string * string)))
                  "input" "output" world_stale_output))) = Some Dir /\
    dir_contents "output"
      (fs (snd (run_mapreduce_job
                  (identity_callable (A := list (string * string)))
                  (identity_callable (A := list (string * string)))
                  "input" "output" world_stale_output))) =
      [(result_path "output", File (result_text s2));
       (marker_path "output", File "")].
Proof.
  apply (C7_output_directory_holds_only_new_files
           (identity_callable (A := list (string * string)))
           (identity_callable (A := list (string * string)))
           "input" "output" world_stale_output).
  - reflexivity.
  - reflexivity.
  - reflexivity.
  - vm_compute. reflexivity.
Defined.

(** C8: once the input is loaded, the mapper is applied once, to the
    whole loaded sequence; if it raises, the run ends with that very
    exception and the reducer is not applied.  Otherwise the reducer is
    applied once, to the whole sorted sequence; if it raises, the run
    ends with that very exception.  Otherwise the run goes on to publish
    the reducer's sequence, and the state the callables act on is the
    one left by that single mapper call followed by that single reducer
    call. *)
Theorem C8_callables_applied_once_errors_unchanged {U V W : Type}
  {fmt : PyFormat W}
  (mapper : callable U (list (string * string)) (list (string * V)))
  (reducer : callable U (list (string * V)) (list (string * W)))
  (i o : string) (w w0 : World U) (s0 : list (string * string)) :
  _load_input i w = (Ok s0, w0) ->
  (forall e u1,
      mapper s0 (user w) = (Raise e, u1) ->
      run_mapreduce_job mapper reducer i o w = (Raise e, with_user w0 u1)) /\
  (forall s1 u1,
      mapper s0 (user w) = (Ok s1, u1) ->
      (forall e u2,
          reducer (_shuffle_and_sort s1) u1 = (Raise e, u2) ->
          run_mapreduce_job mapper reducer i o w
            = (Raise e, with_user w0 u2)) /\
      (forall s2 u2,
          reducer (_shuffle_and_sort s1) u1 = (Ok s2, u2) ->
          run_mapreduce_job mapper reducer i o w
            = publish o s2 (with_user w0 u2) /\
          user (snd (run_mapreduce_job mapper reducer i o w)) = u2)).
Proof.
  intros Hload. rewrite run_mapreduce_job_eq, Hload.
  destruct (load_input_frame _ _ _ _ Hload) as (_ & _ & ->).
  split.
  - intros e u1 ->. reflexivity.
  - intros s1 u1 ->. split.
    + intros e u2 ->. reflexivity.
    + intros s2 u2 ->. split; [reflexivity|].
      destruct (publish o s2 (with_user w0 u2)) as [r w'] eqn:Hpub.
      apply publish_inv in Hpub
        as (r0 & t & ev & _ & _ & _ & [(_ & ->)|[(_ & _ & ->)|(_ & _ & ->)]]);
        reflexivity.
Qed.

Lemma C8_callables_applied_once_errors_unchanged_witness :
  user (snd (run_mapreduce_job counting_mapper counting_reducer
               "input" "output" world_counting)) = (1, 1) /\
  fst (run_mapreduce_job
         (failing_callable (B := list (string * string)) (UserError "boom"))
         counting_reducer "input" "output" world_counting)
    = Raise (UserError "boom").
Proof.
  destruct (C8_callables_applied_once_errors_unchanged
              counting_mapper counting_reducer "input" "output"
              world_counting world_counting _ eq_refl) as (_ & Hok).
  destruct (Hok _ _ eq_refl) as (_ & Hred).
  destruct (Hred _ _ eq_refl) as (_ & Huser).
  split; [exact Huser|reflexivity].
Defined.

(** C9 (the code departs from the claim): with an input directory that
    has no entry, the first run takes its records from standard input
    and uses them up, so a second run on the same paths, with the same
    deterministic callables, writes a different (empty) result file. *)
Theorem C9_second_run_differs_when_input_is_empty :
  fst (run_mapreduce_job
         (identity_callable (A := list (string * string)))
         (identity_callable (A := list (string * string)))
         "input" "output" world_empty_input) = Ok tt /\
  dir_contents "output"
    (fs (snd (run_mapreduce_job
                (identity_callable (A := list (string * string)))
                (identity_callable (A := list (string * string)))
                "input" "output" world_empty_input))) =
    [("output/part-00000",
      File ("<stdin>" +:+ TAB +:+ "hello" +:+ NL +:+ NL));
     ("output/_SUCCESS", File "")] /\
  fst (run_mapreduce_job
         (identity_callable (A := list (string * string)))
         (identity_callable (A := list (string * string)))
         "input" "output"
         (snd (run_mapreduce_job
                 (identity_callable (A := list (string * string)))
                 (identity_callable (A := list (string * string)))
                 "input" "output" world_empty_input))) = Ok tt /\
  dir_contents "output"
    (fs (snd (run_mapreduce_job
                (identity_callable (A := list (string * string)))
                (identity_callable (A := list (string * string)))
                "input" "output"
                (snd (run_mapreduce_job
                        (identity_callable (A := list (string * string)))
                        (identity_callable (A := list (string * string)))
                        "input" "output" world_empty_input))))) =
    [("output/part-00000", File ""); ("output/_SUCCESS", File "")].
Proof. repeat split. Qed.

(** C10: the shuffle-sort stage looks at keys only.  It is defined for
    values of any type, with no comparison on them; replacing the values
    by any others commutes with it, so each value travels with its key;
    and the keys of its output are the keys of its input sorted on their
    own. *)
Theorem C10_shuffle_and_sort_keys_only {V W : Type} (f : V -> W)
  (sequence : list (string * V)) :
  _shuffle_and_sort (map_values f sequence) =
    map_values f (_shuffle_and_sort sequence) /\
  map fst (_shuffle_and_sort sequence) =
    sorted (fun k => k) String.ltb (map fst sequence).
Proof.
  split; [apply shuffle_map_values|apply shuffle_fst].
Qed.

(* ================================================================== *)
(** * Further properties of the code *)

(* ------------------------------------------------------------------ *)
(** *** The shuffle-sort stage *)

Lemma string_leb_ltb_false (s t : string) :
  String.leb s t = true -> String.ltb t s = false.
Proof.
  unfold String.ltb, String.leb. rewrite (String.compare_antisym t s).
  destruct (String.compare s t); simpl; congruence.
Qed.

Lemma string_ltb_leb_trans (k s t : string) :
  String.ltb k s = true -> String.leb s t = true -> String.ltb k t = true.
Proof.
  unfold String.ltb, String.leb.
  destruct (String.compare k s) eqn:Hks; try discriminate. intros _.
  destruct (String.compare s t) eqn:Hst; try discriminate; intros _.
  - apply String.compare_eq_iff in Hst. subst. now rewrite Hks.
  - now rewrite (string_compare_lt_trans _ _ _ Hks Hst).
Qed.

Lemma string_ltb_asym (s t : string) :
  String.ltb s t = true -> String.ltb t s = false.
Proof. intros H. now apply string_leb_ltb_false, string_ltb_leb. Qed.

Lemma string_ltb_neq (s t : string) :
  String.ltb s t = true -> String.eqb t s = false.
Proof.
  intros H. apply String.eqb_neq. intros ->.
  now rewrite string_ltb_irrefl in H.
Qed.

Lemma insort_below_head {V : Type} (x : string * V) (l : list (string * V)) :
  HdRel key_le x l -> insort (fun r => fst r) String.ltb x l = x :: l.
Proof.
  intros H. destruct l as [|y l]; [reflexivity|].
  inversion H as [|? ? Hxy]; subst. simpl.
  now rewrite (string_leb_ltb_false _ _ Hxy).
Qed.

Lemma shuffle_of_sorted {V : Type} (l : list (string * V)) :
  Sorted key_le l -> _shuffle_and_sort l = l.
Proof.
  induction 1 as [|x l Hs IH Hhd]; [reflexivity|].
  unfold _shuffle_and_sort in *. simpl. rewrite IH.
  now apply insort_below_head.
Qed.

Lemma filter_none {A : Type} (f : A -> bool) (l : list A) :
  (forall x, In x l -> f x = false) -> filter f l = [].
Proof.
  induction l as [|x l IH]; intros H; [reflexivity|].
  simpl. rewrite (H x) by (simpl; auto). apply IH. intros y Hy.
  apply H. simpl. auto.
Qed.

Lemma filter_all {A : Type} (f : A -> bool) (l : list A) :
  (forall x, In x l -> f x = true) -> filter f l = l.
Proof.
  induction l as [|x l IH]; intros H; [reflexivity|].
  simpl. rewrite (H x) by (simpl; auto). f_equal. apply IH. intros y Hy.
  apply H. simpl. auto.
Qed.

(** A sequence in key order is its records below [k], then those with
    key [k], then those above. *)
Lemma sorted_three_way {V : Type} (k : string) (l : list (string * V)) :
  StronglySorted key_le l ->
  l = filter (fun r => String.ltb (fst r) k) l
      ++ with_key k l
      ++ filter (fun r => String.ltb k (fst r)) l.
Proof.
  induction 1 as [|x l Hs IH Hall]; [reflexivity|].
  rewrite Forall_forall in Hall. unfold with_key in *. simpl.
  destruct (String.compare (fst x) k) eqn:Hc.
  - apply String.compare_eq_iff in Hc. subst k.
    rewrite string_ltb_irrefl, String.eqb_refl.
    rewrite (filter_none (fun r => String.ltb (fst r) (fst x))) in *
      by (intros y Hy; apply string_leb_ltb_false, (Hall y Hy)).
    simpl in *. f_equal. exact IH.
  - assert (Hlt : String.ltb (fst x) k = true) by (unfold String.ltb; now rewrite Hc).
    rewrite Hlt, (string_ltb_asym _ _ Hlt).
    replace (String.eqb (fst x) k) with false
      by (symmetry; apply String.eqb_neq; intros Heq;
          rewrite Heq, string_ltb_irrefl in Hlt; discriminate).
    simpl. f_equal. exact IH.
  - assert (Hgt : String.ltb k (fst x) = true).
    { unfold String.ltb. rewrite String.compare_antisym, Hc. reflexivity. }
    rewrite Hgt, (string_ltb_asym _ _ Hgt), (string_ltb_neq _ _ Hgt).
    assert (Habove : forall y, In y l -> String.ltb k (fst y) = true)
      by (intros y Hy; eapply string_ltb_leb_trans; [exact Hgt|apply (Hall y Hy)]).
    rewrite (filter_none (fun r => String.ltb (fst r) k))
      by (intros y Hy; apply string_ltb_asym, Habove, Hy).
    rewrite (filter_none (fun r => String.eqb (fst r) k))
      by (intros y Hy; apply string_ltb_neq, Habove, Hy).
    rewrite (filter_all (fun r => String.ltb k (fst r))) by exact Habove.
    reflexivity.
Qed.

Lemma with_key_head {V : Type} (x : string * V) (l : list (string * V)) :
  with_key (fst x) (x :: l) = x :: with_key (fst x) l.
Proof. unfold with_key. simpl. now rewrite String.eqb_refl. Qed.

Lemma with_key_In {V : Type} (k : string) (r : string * V) (l : list (string * V)) :
  In r (with_key k l) -> In r l.
Proof. unfold with_key. rewrite filter_In. tauto. Qed.

(** Two sequences in key order that hold, for every key, the same
    records in the same order are the same sequence. *)
Lemma sorted_stable_unique {V : Type} (l1 l2 : list (string * V)) :
  StronglySorted key_le l1 -> StronglySorted key_le l2 ->
  (forall k, with_key k l1 = with_key k l2) -> l1 = l2.
Proof.
  intros H1. revert l2.
  induction H1 as [|x l1 Hs1 IH Hall1]; intros l2 H2 Hk.
  - destruct l2 as [|y l2]; [reflexivity|].
    specialize (Hk (fst y)). rewrite with_key_head in Hk. discriminate.
  - destruct H2 as [|y l2 Hs2 Hall2].
    + specialize (Hk (fst x)). rewrite with_key_head in Hk. discriminate.
    + rewrite Forall_forall in Hall1, Hall2.
      assert (Hxy : x = y).
      { pose proof (Hk (fst x)) as Hx. rewrite with_key_head in Hx.
        unfold with_key in Hx at 2. simpl in Hx.
        destruct (String.eqb (fst y) (fst x)) eqn:E.
        - now injection Hx.
        - exfalso.
          assert (Hin2 : In x l2).
          { eapply with_key_In. unfold with_key. rewrite <- Hx. now left. }
          pose proof (Hk (fst y)) as Hy. rewrite with_key_head in Hy.
          unfold with_key in Hy at 1. simpl in Hy.
          rewrite String.eqb_sym, E in Hy.
          assert (Hin1 : In y l1).
          { eapply with_key_In. unfold with_key. rewrite Hy. now left. }
          apply String.eqb_neq in E. apply E.
          apply String.leb_antisym; [apply (Hall2 x Hin2)|apply (Hall1 y Hin1)]. }
      subst y. f_equal. apply IH; [exact Hs2|].
      intros k. specialize (Hk k). unfold with_key in *. simpl in Hk.
      destruct (String.eqb (fst x) k); [now injection Hk|exact Hk].
Qed.

(** X1: sorting is idempotent, and a sequence that already is in
    ascending key order comes back unchanged. *)
Theorem X1_shuffle_and_sort_idempotent {V : Type} (sequence : list (string * V)) :
  _shuffle_and_sort (_shuffle_and_sort sequence) = _shuffle_and_sort sequence /\
  (Sorted key_le sequence -> _shuffle_and_sort sequence = sequence).
Proof.
  split; [|apply shuffle_of_sorted].
  apply shuffle_of_sorted, shuffle_sorted.
Qed.

Lemma X1_shuffle_and_sort_idempotent_witness :
  _shuffle_and_sort [("a", 2); ("a", 1); ("b", 0)] = [("a", 2); ("a", 1); ("b", 0)].
Proof.
  apply (X1_shuffle_and_sort_idempotent [("a", 2); ("a", 1); ("b", 0)]).
  repeat constructor.
Defined.

(** X2: the stage groups by key.  For every key, its records stand in
    the output as one block, in their input order, with only smaller
    keys before the block and only larger keys after it. *)
Theorem X2_shuffle_and_sort_groups_keys {V : Type} (k : string)
  (sequence : list (string * V)) :
  exists pre post,
    _shuffle_and_sort sequence = pre ++ with_key k sequence ++ post /\
    Forall (fun r => String.ltb (fst r) k = true) pre /\
    Forall (fun r => String.ltb k (fst r) = true) post.
Proof.
  exists (filter (fun r => String.ltb (fst r) k) (_shuffle_and_sort sequence)),
         (filter (fun r => String.ltb k (fst r)) (_shuffle_and_sort sequence)).
  split; [|split].
  - rewrite <- (shuffle_with_key k sequence). apply sorted_three_way.
    apply Sorted_StronglySorted; [apply key_le_trans|apply shuffle_sorted].
  - apply Forall_forall. intros r Hr. now apply filter_In in Hr.
  - apply Forall_forall. intros r Hr. now apply filter_In in Hr.
Qed.

(** X3: the output is determined by the contract of a stable sort: any
    sequence in ascending key order that holds, for every key, the
    input's records of that key in their input order is the sequence
    the stage returns. *)
Theorem X3_shuffle_and_sort_unique {V : Type} (sequence l : list (string * V)) :
  StronglySorted key_le l ->
  (forall k, with_key k l = with_key k sequence) ->
  l = _shuffle_and_sort sequence.
Proof.
  intros Hs Hk. apply sorted_stable_unique; [exact Hs| |].
  - apply Sorted_StronglySorted; [apply key_le_trans|apply shuffle_sorted].
  - intros k. now rewrite shuffle_with_key.
Qed.

Lemma X3_shuffle_and_sort_unique_witness :
  [("a", 2); ("b", 1)] = _shuffle_and_sort [("b", 1); ("a", 2)].
Proof.
  apply (X3_shuffle_and_sort_unique [("b", 1); ("a", 2)] [("a", 2); ("b", 1)]).
  - repeat constructor.
  - intros k. unfold with_key. cbn [filter fst].
    destruct (String.eqb "a" k) eqn:Ea; destruct (String.eqb "b" k) eqn:Eb;
      try reflexivity.
    apply String.eqb_eq in Ea, Eb. subst k. discriminate Eb.
Defined.

(* ------------------------------------------------------------------ *)
(** *** The loader *)

Lemma concat_readlines_from (acc s : string) :
  has_cr s = false ->
  concat_text (readlines_from acc false s) = acc +:+ s.
Proof.
  revert acc. induction s as [|c s IH]; intros acc Hs.
  - simpl. rewrite append_nil_r. destruct acc; [reflexivity|].
    simpl. now rewrite append_nil_r.
  - simpl in Hs. apply orb_false_iff in Hs as [Hc Hs]. simpl.
    destruct (Ascii.eqb c LF) eqn:Elf.
    + apply Ascii.eqb_eq in Elf. subst c.
      cbn [concat_text fold_right]. fold (concat_text (readlines_from "" false s)).
      rewrite IH by exact Hs. now rewrite append_assoc.
    + rewrite Hc, IH by exact Hs. now rewrite append_assoc.
Qed.

Lemma concat_text_app (l m : list string) :
  concat_text (l ++ m) = concat_text l +:+ concat_text m.
Proof.
  induction l as [|x l IH]; [reflexivity|].
  simpl. now rewrite IH, append_assoc.
Qed.

Lemma records_of_text (t : filesystem) (p : string) :
  is_plain_text t p ->
  concat_text (map snd (records_of t p)) = content_of t p.
Proof.
  intros (c & Hc & Hcr). unfold records_of, content_of. rewrite Hc.
  rewrite map_map. simpl. rewrite map_id.
  apply (concat_readlines_from "" c Hcr).
Qed.

Lemma plain_text_regular (t : filesystem) (p : string) :
  is_plain_text t p -> is_regular t p.
Proof. intros (c & Hc & _). now exists c. Qed.

(** X4: the loader loses no text and adds none.  When the input
    directory (its name without glob metacharacter) has a visible entry
    and every visible entry is a regular file without carriage return,
    the loader succeeds, leaves the world as it was, and the lines it
    returns, joined in order, are the texts of the files joined in
    listing order. *)
Theorem X4_load_input_keeps_text {U : Type} (d : string) (w : World U) :
  has_magic d = false ->
  fs_lookup d (fs w) = Some Dir ->
  visible_entries d (fs w) <> [] ->
  Forall (is_plain_text (fs w)) (visible_entries d (fs w)) ->
  exists recs,
    _load_input d w = (Ok recs, w) /\
    concat_text (map snd recs) =
    concat_text (map (content_of (fs w)) (visible_entries d (fs w))).
Proof.
  intros _ Hd Hne Hplain.
  exists (flat_map (records_of (fs w)) (visible_entries d (fs w))). split.
  - rewrite load_input_eq, glob_paths_dir by exact Hd.
    destruct (visible_entries d (fs w)) eqn:E; [congruence|].
    rewrite read_files_regular; [reflexivity|].
    eapply Forall_impl; [|exact Hplain]. apply plain_text_regular.
  - clear Hne. induction Hplain as [|p files Hp _ IH]; [reflexivity|].
    simpl. rewrite map_app, concat_text_app, IH, records_of_text by exact Hp.
    reflexivity.
Qed.

Lemma X4_load_input_keeps_text_witness :
  exists recs,
    _load_input "input" world_two_files = (Ok recs, world_two_files) /\
    concat_text (map snd recs) =
    concat_text (map (content_of (fs world_two_files))
                     (visible_entries "input" (fs world_two_files))).
Proof.
  apply (X4_load_input_keeps_text "input" world_two_files).
  - reflexivity.
  - reflexivity.
  - vm_compute. discriminate.
  - repeat constructor; eexists; split; reflexivity.
Defined.

(** X5: without a visible entry to read (the path, its name without
    glob metacharacter, is not a directory, or the directory has only
    hidden entries or none), the loader takes its records from standard
    input as it stands: one record per line ended by "\n", a carriage
    return kept as it is, each under the name "<stdin>".  Standard input
    is used up: loading again right after returns the empty sequence.
    The file system is not touched. *)
Theorem X5_load_input_falls_back_to_stdin {U : Type} (d : string) (w : World U) :
  has_magic d = false ->
  fs_lookup d (fs w) <> Some Dir \/ visible_entries d (fs w) = [] ->
  _load_input d w =
    (Ok (map (pair "<stdin>") (stdin_lines (stdin w))),
     mkWorld (fs w) "" (trace w) (user w)) /\
  _load_input d (mkWorld (fs w) "" (trace w) (user w)) =
    (Ok [], mkWorld (fs w) "" (trace w) (user w)).
Proof.
  intros _ Hno.
  assert (Hglob : glob_paths (d +:+ "/*") (fs w) = []).
  { destruct (fs_lookup d (fs w)) as [[c|]|] eqn:E;
      try (apply glob_paths_not_dir; congruence).
    destruct Hno as [Hno|Hno]; [congruence|].
    now rewrite glob_paths_dir. }
  split; rewrite load_input_eq; cbn [fs stdin trace user]; now rewrite Hglob.
Qed.

Lemma X5_load_input_falls_back_to_stdin_witness :
  _load_input "input" world_crlf_stdin =
    (Ok [("<stdin>", "a" +:+ String CR NL); ("<stdin>", "b" +:+ String CR ("c" +:+ NL))],
     mkWorld [("input", Dir); ("input/.hidden", File "h")] "" [] tt) /\
  _load_input "input"
    (mkWorld [("input", Dir); ("input/.hidden", File "h")] "" [] tt) =
    (Ok [], mkWorld [("input", Dir); ("input/.hidden", File "h")] "" [] tt).
Proof.
  apply (X5_load_input_falls_back_to_stdin "input" world_crlf_stdin).
  - reflexivity.
  - right. reflexivity.
Defined.

(** X15: for an input directory whose name holds no glob metacharacter
    and which has at least one visible entry, the loader reads exactly
    the direct entries whose name does not start with a dot, without
    recursion and without filtering by extension or type; when each of
    them is a regular file it returns one record per line of each, the
    file's path with the line, in listing order, and it raises when one
    of them is not. *)
Theorem X15_load_input_visible_entries {U : Type} (d : string) (w : World U) :
  has_magic d = false ->
  fs_lookup d (fs w) = Some Dir ->
  visible_entries d (fs w) <> [] ->
  (forall p, In p (visible_entries d (fs w)) <->
             In p (map fst (fs w)) /\
             exists n, entry_name d p = Some n /\ _ishidden n = false) /\
  (Forall (is_regular (fs w)) (visible_entries d (fs w)) ->
   _load_input d w =
     (Ok (flat_map (records_of (fs w)) (visible_entries d (fs w))), w)) /\
  (forall p, In p (visible_entries d (fs w)) -> ~ is_regular (fs w) p ->
             exists e, _load_input d w = (Raise e, w)).
Proof.
  intros _ Hd Hne. split; [|split].
  - intros p. unfold visible_entries. rewrite filter_In.
    unfold is_visible_entry_of. split.
    + intros [Hp Hv]. split; [exact Hp|].
      destruct (entry_name d p) as [n|]; [|discriminate].
      exists n. split; [reflexivity|]. now apply negb_true_iff.
    + intros [Hp (n & -> & Hn)]. split; [exact Hp|]. now rewrite Hn.
  - intros Hreg. rewrite load_input_eq, glob_paths_dir by exact Hd.
    destruct (visible_entries d (fs w)) eqn:E; [congruence|].
    now rewrite read_files_regular.
  - intros p Hp Hirr. rewrite load_input_eq, glob_paths_dir by exact Hd.
    destruct (visible_entries d (fs w)) eqn:E; [congruence|].
    destruct (read_files_irregular _ _ _ Hp Hirr) as [e ->]. now exists e.
Qed.

Lemma X15_load_input_visible_entries_witness :
  (forall p, In p (visible_entries "input" (fs world_two_files)) <->
             In p (map fst (fs world_two_files)) /\
             exists n, entry_name "input" p = Some n /\ _ishidden n = false) /\
  (Forall (is_regular (fs world_two_files))
          (visible_entries "input" (fs world_two_files)) ->
   _load_input "input" world_two_files =
     (Ok (flat_map (records_of (fs world_two_files))
                   (visible_entries "input" (fs world_two_files))),
      world_two_files)) /\
  (forall p, In p (visible_entries "input" (fs world_two_files)) ->
             ~ is_regular (fs world_two_files) p ->
             exists e, _load_input "input" world_two_files = (Raise e, world_two_files)).
Proof.
  apply (X15_load_input_visible_entries "input" world_two_files).
  - reflexivity.
  - reflexivity.
  - vm_compute. discriminate.
Defined.

(* ------------------------------------------------------------------ *)
(** *** Resetting the output directory: how it fails, what it creates *)

Lemma for_each_app {U A : Type} (f : A -> M U unit) (l1 l2 : list A)
  (w : World U) :
  for_each f (l1 ++ l2) w = (for_each f l1 ;;; for_each f l2) w.
Proof.
  revert w. induction l1 as [|x l1 IH]; intros w; simpl.
  - reflexivity.
  - unfold bind in *. destruct (f x w) as [[[]|e] w1]; [|reflexivity].
    apply IH.
Qed.

Lemma for_each_remove_ok {U : Type} (files : list string) (w : World U) :
  NoDup files -> Forall (is_regular (fs w)) files ->
  for_each os_remove files w =
  (Ok tt, evolve w (fs_delete_all files (fs w)) (map EvRemove files)).
Proof.
  intros Hnd. revert w. induction Hnd as [|p files Hp Hnd IH]; intros w Hreg.
  - simpl. unfold ret. now rewrite evolve_id.
  - inversion Hreg as [|? ? [c Hc] Hrest]; subst.
    simpl. unfold bind, os_remove at 1. rewrite Hc.
    rewrite IH.
    + rewrite log_evolve, evolve_evolve. reflexivity.
    + simpl. apply Forall_forall. intros q Hq.
      rewrite Forall_forall in Hrest. destruct (Hrest q Hq) as [c' Hc'].
      exists c'. rewrite fs_lookup_delete_other; [exact Hc'|].
      intros ->. contradiction.
Qed.

Lemma visible_entries_NoDup d t :
  NoDup (map fst t) -> NoDup (visible_entries d t).
Proof. intros H. now apply NoDup_filter. Qed.

Lemma visible_entries_longer d t p :
  In p (visible_entries d t) -> String.length d < String.length p.
Proof.
  intros H. apply filter_In in H as [_ H].
  now apply is_entry_of_longer, is_visible_entry.
Qed.

(** The reset of an existing directory, as the three calls it makes. *)
Lemma create_output_directory_dir_eq {U : Type} (o : string) (w : World U) :
  fs_lookup o (fs w) = Some Dir ->
  _create_output_directory o w =
  ((for_each os_remove (visible_entries o (fs w)) ;;; os_rmdir o) ;;;
   os_makedirs o) w.
Proof.
  intros Hd. unfold _create_output_directory.
  unfold bind at 1 2. unfold os_path_exists at 1. unfold fs_exists.
  rewrite Hd. unfold bind at 1. unfold glob_glob at 1.
  rewrite glob_paths_dir by exact Hd. reflexivity.
Qed.

(** X6: a hidden entry defeats the reset.  When the output directory
    (its name without glob metacharacter) holds an entry whose name starts with a dot beside regular visible
    files, the reset removes the visible files, then fails on
    [os.rmdir] with the directory not empty: the directory and its
    hidden entries stay, and nothing is created. *)
Theorem X6_create_output_directory_hidden_entry {U : Type} (o p : string)
  (w : World U) :
  has_magic o = false ->
  NoDup (map fst (fs w)) ->
  fs_lookup o (fs w) = Some Dir ->
  Forall (is_regular (fs w)) (visible_entries o (fs w)) ->
  In p (os_listdir o (fs w)) ->
  is_visible_entry_of o p = false ->
  _create_output_directory o w =
    (Raise (DirectoryNotEmpty o),
     evolve w (fs_delete_all (visible_entries o (fs w)) (fs w))
              (map EvRemove (visible_entries o (fs w)))) /\
  fs_lookup p (fs_delete_all (visible_entries o (fs w)) (fs w))
    = fs_lookup p (fs w).
Proof.
  intros _ Hnd Hd Hreg Hp Hhid.
  assert (Hpv : ~ In p (visible_entries o (fs w))).
  { intros Hin. apply filter_In in Hin as [_ Hin]. congruence. }
  split; [|now apply fs_lookup_delete_all_other].
  rewrite create_output_directory_dir_eq by exact Hd.
  unfold bind at 1 2.
  rewrite for_each_remove_ok by (try apply visible_entries_NoDup; assumption).
  unfold os_rmdir. cbn [fs evolve].
  rewrite fs_lookup_delete_all_other, Hd.
  2:{ intros Hin. apply visible_entries_longer in Hin. lia. }
  destruct (os_listdir o (fs_delete_all (visible_entries o (fs w)) (fs w)))
    eqn:E; [|reflexivity].
  exfalso. unfold os_listdir in *. apply map_eq_nil in E.
  rewrite dir_contents_nil in E.
  apply in_map_iff in Hp as ([q n] & <- & Hq).
  apply filter_In in Hq as [Hq He]. simpl in *.
  rewrite (E q) in He; [discriminate|].
  apply fs_delete_all_keys. split; [|exact Hpv].
  apply in_map_iff. now exists (q, n).
Qed.

Lemma X6_create_output_directory_hidden_entry_witness :
  _create_output_directory "output" world_hidden_output =
    (Raise (DirectoryNotEmpty "output"),
     evolve world_hidden_output
       (fs_delete_all (visible_entries "output" (fs world_hidden_output))
                      (fs world_hidden_output))
       (map EvRemove (visible_entries "output" (fs world_hidden_output)))) /\
  fs_lookup "output/.keep"
    (fs_delete_all (visible_entries "output" (fs world_hidden_output))
                   (fs world_hidden_output))
    = fs_lookup "output/.keep" (fs world_hidden_output).
Proof.
  apply (X6_create_output_directory_hidden_entry
           "output" "output/.keep" world_hidden_output).
  - reflexivity.
  - simpl. repeat constructor; simpl; intuition discriminate.
  - reflexivity.
  - repeat constructor. eexists. reflexivity.
  - vm_compute. auto.
  - reflexivity.
Defined.

(** X7: a subdirectory stops the reset half way.  When, in an output
    directory whose name holds no glob metacharacter, the first visible
    entry that is not a regular file is a directory, the reset
    removes the regular files listed before it and fails on it with
    [IsADirectoryError]; the entries listed after it, the subdirectory
    and the output directory itself are left in place. *)
Theorem X7_create_output_directory_subdirectory {U : Type} (o p : string)
  (before after : list string) (w : World U) :
  has_magic o = false ->
  NoDup (map fst (fs w)) ->
  fs_lookup o (fs w) = Some Dir ->
  visible_entries o (fs w) = before ++ p :: after ->
  Forall (is_regular (fs w)) before ->
  fs_lookup p (fs w) = Some Dir ->
  _create_output_directory o w =
    (Raise (IsADirectoryError p),
     evolve w (fs_delete_all before (fs w)) (map EvRemove before)) /\
  (forall q, In q (o :: p :: after) ->
             fs_lookup q (fs_delete_all before (fs w)) = fs_lookup q (fs w)).
Proof.
  intros _ Hnd Hd Hvis Hreg Hp.
  pose proof (visible_entries_NoDup o _ Hnd) as Hv. rewrite Hvis in Hv.
  assert (Hb : NoDup before) by (now apply NoDup_app_remove_r in Hv).
  assert (Hout : forall q, In q (o :: p :: after) -> ~ In q before).
  { intros q [<-|Hq] Hin.
    - assert (Hin' : In o (visible_entries o (fs w)))
        by (rewrite Hvis; apply in_or_app; now left).
      apply visible_entries_longer in Hin'. lia.
    - clear - Hv Hq Hin. induction before as [|b before IH]; [contradiction|].
      simpl in Hv. inversion Hv as [|? ? Hnb Hv']; subst.
      destruct Hin as [->|Hin]; [|now apply IH].
      apply Hnb. apply in_or_app. now right. }
  split.
  - rewrite create_output_directory_dir_eq by exact Hd.
    unfold bind at 1 2. rewrite Hvis, for_each_app.
    unfold bind at 1. rewrite for_each_remove_ok by assumption.
    simpl for_each. unfold bind at 1. unfold os_remove at 1. cbn [fs evolve].
    rewrite fs_lookup_delete_all_other, Hp; [reflexivity|].
    apply Hout. simpl. auto.
  - intros q Hq. apply fs_lookup_delete_all_other. now apply Hout.
Qed.

Lemma X7_create_output_directory_subdirectory_witness :
  _create_output_directory "output" world_nested_output =
    (Raise (IsADirectoryError "output/sub"),
     evolve world_nested_output
       (fs_delete_all ["output/a"] (fs world_nested_output))
       (map EvRemove ["output/a"])) /\
  (forall q, In q ["output"; "output/sub"; "output/z"] ->
             fs_lookup q (fs_delete_all ["output/a"] (fs world_nested_output))
             = fs_lookup q (fs world_nested_output)).
Proof.
  apply (X7_create_output_directory_subdirectory
           "output" "output/sub" ["output/a"] ["output/z"] world_nested_output).
  - reflexivity.
  - simpl. repeat constructor; simpl; intuition discriminate.
  - reflexivity.
  - reflexivity.
  - repeat constructor. eexists. reflexivity.
  - reflexivity.
Defined.

(** X8: when the output path (without glob metacharacter) names a
    regular file, the reset fails on
    [os.rmdir] with [NotADirectoryError] and changes nothing: the file
    is neither removed nor replaced by a directory. *)
Theorem X8_create_output_directory_on_file {U : Type} (o c : string)
  (w : World U) :
  has_magic o = false ->
  fs_lookup o (fs w) = Some (File c) ->
  _create_output_directory o w = (Raise (NotADirectoryError o), w).
Proof.
  intros _ Hf. unfold _create_output_directory.
  unfold bind at 1 2. unfold os_path_exists at 1. unfold fs_exists.
  rewrite Hf. unfold bind at 1. unfold glob_glob at 1.
  rewrite glob_paths_not_dir by congruence.
  simpl for_each. unfold bind, ret, os_rmdir. now rewrite Hf.
Qed.

Lemma X8_create_output_directory_on_file_witness :
  _create_output_directory "output" world_output_is_file
    = (Raise (NotADirectoryError "output"), world_output_is_file).
Proof.
  apply (X8_create_output_directory_on_file "output" "x" world_output_is_file).
  - reflexivity.
  - reflexivity.
Defined.

Lemma blocked_by_file_cons (a b : string) (rest : list string) (t : filesystem) :
  blocked_by_file (a :: b :: rest) t =
  match fs_lookup a t with
  | Some (File _) => Some b
  | _ => blocked_by_file (b :: rest) t
  end.
Proof. reflexivity. Qed.

Lemma blocked_by_file_none (l : list string) (p : string) (t : filesystem) :
  (forall a, In a l -> ~ is_regular t a) ->
  blocked_by_file (l ++ [p]) t = None.
Proof.
  induction l as [|a l IH]; intros H; [reflexivity|].
  simpl app. destruct (l ++ [p]) as [|b rest] eqn:E.
  - now destruct l.
  - rewrite blocked_by_file_cons.
    destruct (fs_lookup a t) as [[c|]|] eqn:Ea.
    + exfalso. apply (H a); [now left|]. now exists c.
    + apply IH. intros x Hx. apply H. now right.
    + apply IH. intros x Hx. apply H. now right.
Qed.

Lemma fs_lookup_dirs (a : string) (l : list string) (rest : filesystem) :
  In a l -> fs_lookup a (map (fun x => (x, Dir)) l ++ rest) = Some Dir.
Proof.
  induction l as [|x l IH]; [contradiction|].
  intros [->|Hin]; simpl.
  - now rewrite String.eqb_refl.
  - destruct (String.eqb x a); [reflexivity|]. now apply IH.
Qed.

Lemma fs_lookup_dirs_None (q : string) (l : list string) :
  ~ In q l -> fs_lookup q (map (fun x => (x, Dir)) l) = None.
Proof.
  intros H. apply fs_lookup_None. now rewrite map_map, map_id.
Qed.

Lemma os_makedirs_ok {U : Type} (o : string) (w : World U) :
  o <> "" ->
  fs_lookup o (fs w) = None ->
  (forall a, In a (ancestors o) -> ~ is_regular (fs w) a) ->
  os_makedirs o w =
  (Ok tt,
   evolve w
     (fs w
      ++ map (fun a => (a, Dir))
             (filter (fun a => negb (fs_exists a (fs w))) (ancestors o))
      ++ [(o, Dir)])
     [EvMakedirs o]).
Proof.
  intros Hne Hnone Hanc. unfold os_makedirs.
  destruct o as [|c o']; [congruence|].
  rewrite Hnone, blocked_by_file_none by exact Hanc. reflexivity.
Qed.

(** What [os.makedirs o] leaves when it succeeds on a table without
    [o]: every ancestor and [o] are directories, what was there is
    there, and nothing else appeared. *)
Lemma makedirs_result (o : string) (t : filesystem) :
  fs_lookup o t = None ->
  (forall a, In a (ancestors o) -> ~ is_regular t a) ->
  let t' := t ++ map (fun a => (a, Dir))
                     (filter (fun a => negb (fs_exists a t)) (ancestors o))
              ++ [(o, Dir)] in
  (forall a, In a (ancestors o ++ [o]) -> fs_lookup a t' = Some Dir) /\
  (forall q n, fs_lookup q t = Some n -> fs_lookup q t' = Some n) /\
  (forall q, ~ In q (ancestors o ++ [o]) -> fs_lookup q t' = fs_lookup q t).
Proof.
  intros Hnone Hanc. cbv zeta.
  set (made := filter (fun a => negb (fs_exists a t)) (ancestors o)).
  assert (Ho : ~ In o made).
  { intros Hin. apply filter_In in Hin as [Hin _].
    apply ancestors_shorter in Hin. lia. }
  split; [|split].
  - intros a Ha. apply in_app_or in Ha as [Ha|[<-|[]]].
    + rewrite fs_lookup_app.
      destruct (fs_lookup a t) as [[c|]|] eqn:Ea.
      * exfalso. apply (Hanc a Ha). now exists c.
      * reflexivity.
      * apply fs_lookup_dirs. apply filter_In. split; [exact Ha|].
        unfold fs_exists. now rewrite Ea.
    + rewrite !fs_lookup_app, Hnone, fs_lookup_dirs_None by exact Ho.
      simpl. now rewrite String.eqb_refl.
  - intros q n Hq. now rewrite fs_lookup_app, Hq.
  - intros q Hq. rewrite !fs_lookup_app.
    destruct (fs_lookup q t); [reflexivity|].
    rewrite fs_lookup_dirs_None.
    + simpl. destruct (String.eqb o q) eqn:E; [|reflexivity].
      apply String.eqb_eq in E. subst q. exfalso. apply Hq.
      apply in_or_app. right. now left.
    + intros Hin. apply Hq. apply in_or_app. left.
      apply filter_In in Hin. tauto.
Qed.

(** X9: the reset creates what is missing and nothing else.  For an
    output path that does not exist and has no regular file among its
    ancestors, the reset succeeds with the single call [os.makedirs]:
    afterwards the path and every ancestor of it are directories, every
    entry that existed is unchanged, and no other path appeared. *)
Theorem X9_create_output_directory_creates_parents {U : Type} (o : string)
  (w : World U) :
  o <> "" ->
  fs_lookup o (fs w) = None ->
  (forall a, In a (ancestors o) -> ~ is_regular (fs w) a) ->
  exists w',
    _create_output_directory o w = (Ok tt, w') /\
    trace w' = trace w ++ [EvMakedirs o] /\
    (forall a, In a (ancestors o ++ [o]) -> fs_lookup a (fs w') = Some Dir) /\
    (forall q n, fs_lookup q (fs w) = Some n -> fs_lookup q (fs w') = Some n) /\
    (forall q, ~ In q (ancestors o ++ [o]) ->
               fs_lookup q (fs w') = fs_lookup q (fs w)).
Proof.
  intros Hne Hnone Hanc. eexists. split.
  - unfold _create_output_directory.
    unfold bind at 1 2. unfold os_path_exists at 1. unfold fs_exists.
    rewrite Hnone. unfold ret. now apply os_makedirs_ok.
  - split; [reflexivity|]. now apply makedirs_result.
Qed.

Lemma X9_create_output_directory_creates_parents_witness :
  exists w',
    _create_output_directory "results/run1/output" world_two_files = (Ok tt, w') /\
    trace w' = trace world_two_files ++ [EvMakedirs "results/run1/output"] /\
    (forall a, In a (ancestors "results/run1/output" ++ ["results/run1/output"]) ->
               fs_lookup a (fs w') = Some Dir) /\
    (forall q n, fs_lookup q (fs world_two_files) = Some n ->
                 fs_lookup q (fs w') = Some n) /\
    (forall q, ~ In q (ancestors "results/run1/output" ++ ["results/run1/output"]) ->
               fs_lookup q (fs w') = fs_lookup q (fs world_two_files)).
Proof.
  apply (X9_create_output_directory_creates_parents
           "results/run1/output" world_two_files).
  - discriminate.
  - reflexivity.
  - intros a Ha [c Hc]. vm_compute in Ha.
    destruct Ha as [<-|[<-|[]]]; discriminate Hc.
Defined.

(* ------------------------------------------------------------------ *)
(** *** The run as a whole *)

(** Whatever its outcome, the reset leaves alone every path that is
    neither the directory, nor an ancestor of it, nor a direct entry of
    it. *)
Lemma create_output_directory_frame {U : Type} (o q : string)
  (w w' : World U) r :
  _create_output_directory o w = (r, w') ->
  q <> o -> ~ In q (ancestors o) -> is_entry_of o q = false ->
  fs_lookup q (fs w') = fs_lookup q (fs w).
Proof.
  intros Hrun Hne Hanc Hentry.
  assert (Hmk : forall (w1 w2 : World U) r1,
             os_makedirs o w1 = (r1, w2) ->
             fs_lookup q (fs w2) = fs_lookup q (fs w1)).
  { intros w1 w2 r1 H. apply os_makedirs_inv in H
      as [(_ & _ & Hnone & made & Hmade & _ & ->)|(_ & ->)]; [|reflexivity].
    cbn [fs evolve]. rewrite fs_lookup_app.
    destruct (fs_lookup q (fs w1)) eqn:Eq; [reflexivity|].
    rewrite fs_lookup_app, fs_lookup_dirs_None by (intros Hin; apply Hanc, Hmade, Hin).
    simpl. destruct (String.eqb o q) eqn:E; [|reflexivity].
    apply String.eqb_eq in E. congruence. }
  revert Hrun. unfold _create_output_directory.
  unfold bind at 1. unfold bind at 1. unfold os_path_exists at 1.
  destruct (fs_exists o (fs w)); [|unfold ret; apply Hmk].
  unfold bind at 1. unfold glob_glob at 1. unfold bind at 1.
  destruct (for_each os_remove (glob_paths (o +:+ "/*") (fs w)) w)
    as [r1 w1] eqn:Hrm.
  apply for_each_remove in Hrm as (gone & -> & Hincl & _).
  assert (Hgone : ~ In q gone).
  { intros Hin. apply Hincl, glob_paths_visible in Hin as [_ Hv].
    apply is_visible_entry in Hv. congruence. }
  destruct r1 as [[]|e].
  - destruct (os_rmdir o _) as [r2 w2] eqn:Hrd.
    apply os_rmdir_inv in Hrd as [(-> & _ & _ & ->)|(Hr & ->)].
    + intros H. apply Hmk in H. rewrite H. cbn [fs evolve].
      rewrite fs_lookup_delete_other by exact Hne.
      now apply fs_lookup_delete_all_other.
    + destruct r2 as [[]|e]; [congruence|].
      intros H. injection H as _ <-. cbn [fs evolve].
      now apply fs_lookup_delete_all_other.
  - intros H. injection H as _ <-. cbn [fs evolve].
    now apply fs_lookup_delete_all_other.
Qed.

(** X10: a run touches nothing outside the output directory.  For
    input and output directory names without glob metacharacter,
    whatever the outcome of the run, every path that is neither the output
    directory, nor one of its ancestors, nor a direct entry of it holds
    after the run what it held before. *)
Theorem X10_run_leaves_other_paths_alone {U V W : Type} {fmt : PyFormat W}
  (mapper : callable U (list (string * string)) (list (string * V)))
  (reducer : callable U (list (string * V)) (list (string * W)))
  (i o q : string) (w w' : World U) (r : result unit) :
  has_magic i = false ->
  has_magic o = false ->
  run_mapreduce_job mapper reducer i o w = (r, w') ->
  q <> o -> ~ In q (ancestors o) -> is_entry_of o q = false ->
  fs_lookup q (fs w') = fs_lookup q (fs w).
Proof.
  intros _ _ Hrun Hne Hanc Hentry.
  assert (Hres : q <> result_path o)
    by (intros ->; rewrite result_path_entry in Hentry; discriminate).
  assert (Hmark : q <> marker_path o)
    by (intros ->; rewrite marker_path_entry in Hentry; discriminate).
  apply run_any in Hrun as [(_ & -> & _)|(w1 & s2 & <- & _ & Hpub)];
    [reflexivity|].
  apply publish_inv in Hpub
    as (r0 & t & ev & Hreset & _ & _
        & [(_ & ->)|[(_ & _ & ->)|(_ & _ & ->)]]);
    apply create_output_directory_frame with (q := q) in Hreset;
    try assumption; cbn [fs evolve] in *;
    rewrite ?fs_lookup_put_other by assumption; exact Hreset.
Qed.

Lemma X10_run_leaves_other_paths_alone_witness :
  fs_lookup "input/a.txt"
    (fs (snd (run_mapreduce_job
                (identity_callable (A := list (string * string)))
                (identity_callable (A := list (string * string)))
                "input" "output" world_stale_output)))
  = fs_lookup "input/a.txt" (fs world_stale_output).
Proof.
  apply (X10_run_leaves_other_paths_alone
           (identity_callable (A := list (string * string)))
           (identity_callable (A := list (string * string)))
           "input" "output" "input/a.txt" world_stale_output _ _
           eq_refl eq_refl (surjective_pairing _)).
  - discriminate.
  - simpl. tauto.
  - reflexivity.
Defined.

Lemma visible_entries_listdir d t :
  visible_entries d t = filter (is_visible_entry_of d) (os_listdir d t).
Proof.
  unfold visible_entries, os_listdir, dir_contents.
  induction t as [|[q n] t IH]; [reflexivity|].
  simpl. destruct (is_entry_of d q) eqn:Ee; simpl.
  - destruct (is_visible_entry_of d q); [f_equal|]; exact IH.
  - destruct (is_visible_entry_of d q) eqn:Ev; [|exact IH].
    apply is_visible_entry in Ev. congruence.
Qed.






(** X12: the result file is truncated, not appended to.  Saving one
    sequence and then another into the same directory leaves the text of
    the second alone. *)
Theorem X12_save_output_overwrites {U V1 V2 : Type}
  {fmt1 : PyFormat V1} {fmt2 : PyFormat V2}
  (d : string) (first : list (string * V1)) (second : list (string * V2))
  (w : World U) :
  fs_lookup d (fs w) = Some Dir ->
  fs_lookup (result_path d) (fs w) <> Some Dir ->
  (_save_output d first ;;; _save_output d second) w =
    (Ok tt,
     evolve w (fs_put (result_path d) (File (result_text second)) (fs w))
              (result_events d first ++ result_events d second)).
Proof.
  intros Hd Hp. unfold bind. rewrite save_output_ok by assumption.
  rewrite save_output_ok.
  - rewrite evolve_evolve. cbn [fs evolve]. now rewrite fs_put_put.
  - cbn [fs evolve]. rewrite fs_lookup_put_other; [exact Hd|].
    intros Heq. pose proof (result_path_longer d). rewrite <- Heq in *. lia.
  - cbn [fs evolve]. rewrite fs_lookup_put_same. discriminate.
Qed.

Lemma X12_save_output_overwrites_witness :
  (_save_output "output" [("dog", 1%Z); ("cat", 2%Z)] ;;;
   _save_output "output" [("emu", "x")]) world_output_ready =
    (Ok tt,
     evolve world_output_ready
       (fs_put (result_path "output") (File (result_text [("emu", "x")]))
               (fs world_output_ready))
       (result_events "output" [("dog", 1%Z); ("cat", 2%Z)]
        ++ result_events "output" [("emu", "x")])).
Proof.
  apply (X12_save_output_overwrites
           "output" [("dog", 1%Z); ("cat", 2%Z)] [("emu", "x")]
           world_output_ready).
  - reflexivity.
  - discriminate.
Defined.

(** X13: a run that fails before the reducer has returned destroys
    nothing.  When the loader, the mapper or the reducer raises, the run
    ends with an exception, no call to the operating system that changes
    the file system was issued, and the file system, an earlier result
    and marker included, is as it was. *)
Theorem X13_early_failure_keeps_old_output {U V W : Type} {fmt : PyFormat W}
  (mapper : callable U (list (string * string)) (list (string * V)))
  (reducer : callable U (list (string * V)) (list (string * W)))
  (i o : string) (w : World U) :
  (exists e w0, _load_input i w = (Raise e, w0)) \/
  (exists s0 w0 e u1,
      _load_input i w = (Ok s0, w0) /\ mapper s0 (user w) = (Raise e, u1)) \/
  (exists s0 w0 s1 u1 e u2,
      _load_input i w = (Ok s0, w0) /\ mapper s0 (user w) = (Ok s1, u1) /\
      reducer (_shuffle_and_sort s1) u1 = (Raise e, u2)) ->
  (exists e, fst (run_mapreduce_job mapper reducer i o w) = Raise e) /\
  fs (snd (run_mapreduce_job mapper reducer i o w)) = fs w /\
  trace (snd (run_mapreduce_job mapper reducer i o w)) = trace w.
Proof.
  rewrite run_mapreduce_job_eq.
  intros [(e & w0 & Hl)|[(s0 & w0 & e & u1 & Hl & Hm)
                        |(s0 & w0 & s1 & u1 & e & u2 & Hl & Hm & Hr)]];
    rewrite Hl; destruct (load_input_frame _ _ _ _ Hl) as (Hfs & Htr & Hu).
  - split; [now exists e|]. auto.
  - rewrite Hu, Hm. split; [now exists e|]. auto.
  - rewrite Hu, Hm, Hr. split; [now exists e|]. auto.
Qed.

Lemma X13_early_failure_keeps_old_output_witness :
  (exists e,
      fst (run_mapreduce_job
             (identity_callable (A := list (string * string)))
             (failing_callable (B := list (string * string)) (UserError "boom"))
             "input" "output" world_stale_output) = Raise e) /\
  fs (snd (run_mapreduce_job
             (identity_callable (A := list (string * string)))
             (failing_callable (B := list (string * string)) (UserError "boom"))
             "input" "output" world_stale_output)) = fs world_stale_output /\
  trace (snd (run_mapreduce_job
                (identity_callable (A := list (string * string)))
                (failing_callable (B := list (string * string)) (UserError "boom"))
                "input" "output" world_stale_output)) = trace world_stale_output.
Proof.
  apply (X13_early_failure_keeps_old_output
           (identity_callable (A := list (string * string)))
           (failing_callable (B := list (string * string)) (UserError "boom"))
           "input" "output" world_stale_output).
  right. right.
  exists [("input/a.txt", "x" +:+ NL)], world_stale_output,
         [("input/a.txt", "x" +:+ NL)], tt, (UserError "boom"), tt.
  repeat split.
Defined.

Lemma create_marker_ok {U : Type} (d : string) (w : World U) :
  fs_lookup d (fs w) = Some Dir ->
  fs_lookup (marker_path d) (fs w) <> Some Dir ->
  _create_marker d w =
  (Ok tt, evolve w (fs_put (marker_path d) (File "") (fs w)) (marker_events d)).
Proof.
  intros Hd Hp.
  destruct (_create_marker d w) as [r w'] eqn:E.
  pose proof E as E'. apply create_marker_inv in E' as [(-> & ->)|(Hr & ->)];
    [reflexivity|].
  exfalso. revert E. unfold _create_marker, with_open_w. fold (marker_path d).
  rewrite open_w_ok; [|now rewrite marker_path_dirname|exact Hp].
  unfold file_write. cbn [fs evolve]. rewrite fs_lookup_put_same.
  intros Heq. injection Heq as <- _. congruence.
Qed.

Lemma publish_ok {U W : Type} {fmt : PyFormat W} (o : string)
  (s2 : list (string * W)) (w : World U) t ev :
  _create_output_directory o w = (Ok tt, evolve w t ev) ->
  fs_lookup o t = Some Dir ->
  fs_lookup (result_path o) t <> Some Dir ->
  fs_lookup (marker_path o) t <> Some Dir ->
  publish o s2 w =
  (Ok tt,
   evolve w (fs_put (marker_path o) (File "")
                    (fs_put (result_path o) (File (result_text s2)) t))
            (ev ++ result_events o s2 ++ marker_events o)).
Proof.
  intros Hreset Hd Hres Hmark. unfold publish, bind. rewrite Hreset.
  rewrite save_output_ok by assumption.
  rewrite create_marker_ok.
  - rewrite !evolve_evolve. cbn [fs evolve]. now rewrite app_assoc.
  - cbn [fs evolve]. rewrite fs_lookup_put_other; [exact Hd|].
    intros Heq. pose proof (result_path_longer o). rewrite <- Heq in *. lia.
  - cbn [fs evolve].
    rewrite fs_lookup_put_other
      by (intros Heq; symmetry in Heq; now apply result_marker_distinct in Heq).
    exact Hmark.
Qed.

Lemma fs_lookup_delete_Some p q n t :
  fs_lookup q (fs_delete p t) = Some n -> fs_lookup q t = Some n.
Proof.
  destruct (string_dec q p) as [->|Hne].
  - now rewrite fs_lookup_delete_same.
  - now rewrite fs_lookup_delete_other.
Qed.

Lemma fs_lookup_delete_all_Some ps q n t :
  fs_lookup q (fs_delete_all ps t) = Some n -> fs_lookup q t = Some n.
Proof.
  unfold fs_delete_all. revert t.
  induction ps as [|p ps IH]; intros t; simpl; [auto|].
  intros H. apply IH in H. now apply fs_lookup_delete_Some in H.
Qed.

Lemma fs_lookup_listdir d p n t :
  fs_lookup p t = Some n -> is_entry_of d p = true -> In p (os_listdir d t).
Proof.
  intros Hp He. apply fs_lookup_In in Hp. unfold os_listdir, dir_contents.
  apply in_map_iff. exists (p, n). split; [reflexivity|].
  apply filter_In. auto.
Qed.

(** The reset succeeds on a directory that holds only visible regular
    files, and on a path that does not exist. *)
Lemma create_output_directory_ok {U : Type} (o : string) (w : World U) :
  NoDup (map fst (fs w)) ->
  o <> "" ->
  fs_lookup o (fs w) = Some Dir \/ fs_lookup o (fs w) = None ->
  Forall (fun p => is_regular (fs w) p /\ is_visible_entry_of o p = true)
         (os_listdir o (fs w)) ->
  (forall a, In a (ancestors o) -> ~ is_regular (fs w) a) ->
  exists t ev,
    _create_output_directory o w = (Ok tt, evolve w t ev) /\
    fs_lookup o t = Some Dir /\
    fs_lookup (result_path o) t <> Some Dir /\
    fs_lookup (marker_path o) t <> Some Dir.
Proof.
  intros Hnd Hne Hdir Hentries Hanc. rewrite Forall_forall in Hentries.
  assert (Hnotdir : forall p t',
             is_entry_of o p = true ->
             (forall n, fs_lookup p t' = Some n -> fs_lookup p (fs w) = Some n) ->
             fs_lookup p t' <> Some Dir).
  { intros p t' He Hsub Hp. apply Hsub in Hp.
    destruct (Hentries p (fs_lookup_listdir _ _ _ _ Hp He)) as [[c Hc] _].
    congruence. }
  destruct Hdir as [Hd|Hnone].
  - set (vis := visible_entries o (fs w)).
    assert (Hreg : Forall (is_regular (fs w)) vis).
    { apply Forall_forall. intros p Hp. apply Hentries.
      unfold vis in Hp. rewrite visible_entries_listdir in Hp.
      now apply filter_In in Hp. }
    set (t1 := fs_delete o (fs_delete_all vis (fs w))).
    assert (Hsub : forall q n, fs_lookup q t1 = Some n -> fs_lookup q (fs w) = Some n).
    { intros q n Hq. unfold t1 in Hq.
      now apply fs_lookup_delete_Some, fs_lookup_delete_all_Some in Hq. }
    assert (Hempty : dir_contents o (fs_delete_all vis (fs w)) = []).
    { apply dir_contents_nil. intros q Hq.
      apply fs_delete_all_keys in Hq as [Hq Hnv].
      destruct (is_entry_of o q) eqn:Ee; [|reflexivity]. exfalso. apply Hnv.
      unfold vis. rewrite visible_entries_listdir. apply filter_In.
      assert (Hin : In q (os_listdir o (fs w))).
      { apply in_map_iff in Hq as ([q' n] & <- & Hq).
        unfold os_listdir, dir_contents. apply in_map_iff.
        exists (q', n). split; [reflexivity|]. apply filter_In. auto. }
      split; [exact Hin|]. now apply Hentries. }
    assert (Hanc1 : forall a, In a (ancestors o) -> ~ is_regular t1 a).
    { intros a Ha [c Hc]. apply (Hanc a Ha). exists c. now apply Hsub. }
    assert (Hnone1 : fs_lookup o t1 = None) by apply fs_lookup_delete_same.
    destruct (makedirs_result o t1 Hnone1 Hanc1) as (Hdirs & _ & Hother).
    eexists _, _. split; [|split; [|split]].
    + rewrite create_output_directory_dir_eq by exact Hd.
      unfold bind at 1 2.
      rewrite for_each_remove_ok
        by (try apply visible_entries_NoDup; assumption).
      fold vis. unfold os_rmdir at 1. cbn [fs evolve].
      rewrite fs_lookup_delete_all_other, Hd
        by (intros Hin; apply visible_entries_longer in Hin; lia).
      unfold os_listdir. rewrite Hempty. cbn [map]. rewrite log_evolve.
      rewrite os_makedirs_ok; rewrite ?evolve_evolve; cbn [fs evolve];
        try assumption.
      reflexivity.
    + apply Hdirs. apply in_or_app. right. now left.
    + rewrite Hother.
      * apply Hnotdir; [apply result_path_entry|apply Hsub].
      * intros Hin. apply in_app_or in Hin as [Hin|[Heq|[]]].
        -- apply ancestors_shorter in Hin. pose proof (result_path_longer o). lia.
        -- pose proof (result_path_longer o). rewrite <- Heq in *. lia.
    + rewrite Hother.
      * apply Hnotdir; [apply marker_path_entry|apply Hsub].
      * intros Hin. apply in_app_or in Hin as [Hin|[Heq|[]]].
        -- apply ancestors_shorter in Hin. pose proof (marker_path_longer o). lia.
        -- pose proof (marker_path_longer o). rewrite <- Heq in *. lia.
  - destruct (makedirs_result o (fs w) Hnone Hanc) as (Hdirs & _ & Hother).
    eexists _, _. split; [|split; [|split]].
    + unfold _create_output_directory.
      unfold bind at 1 2. unfold os_path_exists at 1. unfold fs_exists.
      rewrite Hnone. unfold ret. now apply os_makedirs_ok.
    + apply Hdirs. apply in_or_app. right. now left.
    + rewrite Hother.
      * apply Hnotdir; [apply result_path_entry|auto].
      * intros Hin. apply in_app_or in Hin as [Hin|[Heq|[]]].
        -- apply ancestors_shorter in Hin. pose proof (result_path_longer o). lia.
        -- pose proof (result_path_longer o). rewrite <- Heq in *. lia.
    + rewrite Hother.
      * apply Hnotdir; [apply marker_path_entry|auto].
      * intros Hin. apply in_app_or in Hin as [Hin|[Heq|[]]].
        -- apply ancestors_shorter in Hin. pose proof (marker_path_longer o). lia.
        -- pose proof (marker_path_longer o). rewrite <- Heq in *. lia.
Qed.

(** X14: when a run completes.  For directory names without glob
    metacharacter: if the input loads, the mapper and the reducer
    return, and the output path is either missing or a directory
    that holds nothing but visible regular files, with no regular file
    among its ancestors, then the run completes: the result file holds
    the reducer's records as written by the writer, the marker exists
    and is empty, and the callables' state is the one the reducer
    left. *)
Theorem X14_run_completes {U V W : Type} {fmt : PyFormat W}
  (mapper : callable U (list (string * string)) (list (string * V)))
  (reducer : callable U (list (string * V)) (list (string * W)))
  (i o : string) (w w0 : World U)
  (s0 : list (string * string)) (s1 : list (string * V))
  (s2 : list (string * W)) (u1 u2 : U) :
  has_magic i = false ->
  has_magic o = false ->
  NoDup (map fst (fs w)) ->
  o <> "" ->
  fs_lookup o (fs w) = Some Dir \/ fs_lookup o (fs w) = None ->
  Forall (fun p => is_regular (fs w) p /\ is_visible_entry_of o p = true)
         (os_listdir o (fs w)) ->
  (forall a, In a (ancestors o) -> ~ is_regular (fs w) a) ->
  _load_input i w = (Ok s0, w0) ->
  mapper s0 (user w) = (Ok s1, u1) ->
  reducer (_shuffle_and_sort s1) u1 = (Ok s2, u2) ->
  exists w',
    run_mapreduce_job mapper reducer i o w = (Ok tt, w') /\
    fs_lookup (result_path o) (fs w') = Some (File (result_text s2)) /\
    fs_lookup (marker_path o) (fs w') = Some (File "") /\
    user w' = u2.
Proof.
  intros _ _ Hnd Hne Hdir Hentries Hanc Hl Hm Hr.
  destruct (load_input_frame _ _ _ _ Hl) as (Hfs & _ & Hu).
  destruct (create_output_directory_ok o (with_user w0 u2))
    as (t & ev & Hreset & Hd & Hres & Hmark);
    try (cbn [fs with_user]; rewrite ?Hfs; assumption).
  eexists. split; [|split; [|split]].
  - rewrite run_mapreduce_job_eq, Hl, Hu, Hm, Hr.
    apply (publish_ok o s2 (with_user w0 u2) t ev); assumption.
  - cbn [fs evolve].
    rewrite fs_lookup_put_other by apply result_marker_distinct.
    apply fs_lookup_put_same.
  - cbn [fs evolve]. apply fs_lookup_put_same.
  - reflexivity.
Qed.

Lemma X14_run_completes_witness :
  exists w',
    run_mapreduce_job counting_mapper counting_reducer
      "input" "output" world_counting_stale = (Ok tt, w') /\
    fs_lookup (result_path "output") (fs w')
      = Some (File (result_text [("x" +:+ NL, "1")])) /\
    fs_lookup (marker_path "output") (fs w') = Some (File "") /\
    user w' = (1, 1).
Proof.
  apply (X14_run_completes counting_mapper counting_reducer
           "input" "output" world_counting_stale world_counting_stale
           [("input/a.txt", "x" +:+ NL)]
           [("x" +:+ NL, "1")]
           [("x" +:+ NL, "1")]
           (1, 0) (1, 1)).
  - reflexivity.
  - reflexivity.
  - simpl. repeat constructor; simpl; intuition discriminate.
  - discriminate.
  - left. reflexivity.
  - repeat constructor; eexists; reflexivity.
  - intros a [].
  - reflexivity.
  - reflexivity.
  - reflexivity.
Defined.
